(** * Audio augmentation notebook: model and properties

    A shallow embedding of the notebook
    [week_two/notebooks/3 - Day Three - Model Training 1/04.1 - Augmenting Audio Data.ipynb]:
    its configuration cell, the augmentation chain, [augment_and_save] and
    the driver cell, over an explicit world: the file system, the state of
    Python's [random] module and the libraries' own state.  A statement
    returns or raises and reports the actions it completed: loads, calls of
    the chain, firings, directory creations, writes and console lines.

    The notebook calls four libraries.  [pathlib] and [random] are modelled
    concretely, rationals standing for floats.  The signal processing of
    librosa and audiomentations is kept abstract in the class [Libraries].
    How audiomentations calls a transform is not in the repository; it is
    modelled from the specification, see [call_transform] and
    [call_compose]. *)

From Stdlib Require Import Ascii QArith Lqa.
From stdpp Require Import base strings pretty list gmap.

(** ** Strings and paths (pathlib) *)

Module PathLib.

(** A path is the list of its components below the file-system root. *)
Definition path := list string.

(** [split_slash acc s]: the components of [s] between slashes; [acc] is
    the component being read. *)
Fixpoint split_slash (acc s : string) : list string :=
  match s with
  | EmptyString => [acc]
  | String c s' =>
      if Ascii.eqb c "/"%char then acc :: split_slash "" s'
      else split_slash (acc +:+ String c "") s'
  end.

(** [Path(s)] for an absolute [s]: empty and ["."] components are dropped. *)
Definition Path (s : string) : path :=
  filter (fun c => c <> "" /\ c <> ".") (split_slash "" s).

(** [str(p)] *)
Definition str (p : path) : string :=
  match p with
  | [] => "/"
  | _ => fold_right (fun c acc => "/" +:+ c +:+ acc) "" p
  end.

(** [p.name]: the last component, [''] when there is none. *)
Definition name (p : path) : string := List.last p "".

(** [p.parent] of a relative path: [Path('.').parent] is [Path('.')]. *)
Definition parent (p : path) : path := removelast p.

(** [p / q] with [q] relative. *)
Definition joinpath (p q : path) : path := p ++ q.

(** [p.relative_to(root)]: [None] stands for the [ValueError]. *)
Fixpoint relative_to (p root : path) : option path :=
  match root, p with
  | [], _ => Some p
  | r :: root', c :: p' => if decide (r = c) then relative_to p' root' else None
  | _ :: _, [] => None
  end.

(** [s.rfind('.')]: [None] stands for -1. *)
Fixpoint rfind_dot (s : string) : option nat :=
  match s with
  | EmptyString => None
  | String c s' =>
      match rfind_dot s' with
      | Some i => Some (S i)
      | None => if Ascii.eqb c "."%char then Some 0 else None
      end
  end.

(** [p.stem]: the name up to its last dot, when that dot is neither the
    first nor the last character. *)
Definition stem (p : path) : string :=
  let n := name p in
  match rfind_dot n with
  | Some i => if (0 <? i) && (i <? String.length n - 1)
              then String.substring 0 i n else n
  | None => n
  end.

(** [fnmatch(name, "*" + lit)]: some suffix of [name] is [lit]. *)
Fixpoint match_star (lit name : string) : bool :=
  bool_decide (name = lit) ||
  match name with
  | EmptyString => false
  | String _ name' => match_star lit name'
  end.

(** [root] is a proper ancestor of [p]. *)
Definition below (root p : path) : bool :=
  match relative_to p root with
  | Some (_ :: _) => true
  | _ => false
  end.

End PathLib.
Import PathLib.

(** ** Configuration cell *)

Definition INPUT_DIR : string := "/workspace/data/raw_audio".
Definition OUTPUT_DIR : string := "/workspace/data/augmented_audio".
Definition SAMPLE_RATE : N := 16000.
Definition NUM_AUGMENTATIONS : nat := 3.

Record augmentation_params := {
  noise_amplitude : Q * Q;
  time_stretch_rate : Q * Q;
  pitch_shift_semitones : Q * Q;
  shift_fraction : Q * Q
}.

Definition AUGMENTATION_PARAMS : augmentation_params := {|
  noise_amplitude := (1 # 1000, 15 # 1000);
  time_stretch_rate := (9 # 10, 11 # 10);
  pitch_shift_semitones := (- (2 # 1), 2 # 1);
  shift_fraction := (- (2 # 10), 2 # 10)
|}.

Definition RANDOM_SEED : Z := 42.

(** ** The libraries' signal processing, kept abstract *)

(** The four effects of the chain. *)
Inductive effect := Noise | Stretch | Pitch | TimeShift.

Class Libraries := {
  (** one sample of a waveform (a float in the notebook) *)
  sample : Type;
  (** interpreter state outside the [random] module that a library may read
      and change, such as numpy's global generator *)
  ambient : Type;
  (** the generator started by [random.seed]: its successive raw outputs *)
  mersenne : Z -> nat -> N;
  (** librosa: mix to mono and resample from the file's rate to the target *)
  resample : N -> N -> list sample -> list sample;
  (** soundfile: the sample a [.wav] file holds for a sample written to it;
      the file is 16-bit PCM, so the sample is quantised and clipped *)
  pcm_16 : sample -> sample;
  (** audiomentations: what a transform does to the samples once it has
      decided to apply, given its drawn parameter and the sample rate; it
      produces a new waveform and leaves its input as it was (spec 3), so
      waveforms are values here *)
  apply_effect : effect -> Q -> N -> list sample -> ambient -> list sample * ambient
}.

(** ** Exceptions and outcomes *)

Inductive exn :=
| ValueError
| FileNotFoundError
| IsADirectoryError
| NotADirectoryError
| FileExistsError
| NoBackendError
| LibsndfileError.

Inductive outcome (A : Type) :=
| Ok (a : A)
| Raise (e : exn).
Arguments Ok {A} a.
Arguments Raise {A} e.

(** ** Python's [random] module *)

Record RandomState := {
  stream : nat -> N;
  pos : nat
}.

(** [random()] is a 53-bit integer scaled by 2^-53, so it lies in [0, 1). *)
Definition two53 : positive := 9007199254740992.

Definition draw (st : RandomState) : Q :=
  Z.of_N (stream st (pos st) mod Npos two53) # two53.

Definition advance (st : RandomState) : RandomState :=
  {| stream := stream st; pos := S (pos st) |}.

Section Model.
Context `{Libs : Libraries}.

Definition wave := list sample.

(** ** File system *)

Inductive contents :=
| Audio (sr : N) (y : wave)     (* decodable audio at its native rate *)
| Undecodable.                  (* corrupt, or a format no backend reads *)

Inductive node :=
| Dir
| File (c : contents).

(** Every entry below the root, by path; the root itself is a directory. *)
Definition node_at (fs : gmap path node) (p : path) : option node :=
  match p with
  | [] => Some Dir
  | _ => fs !! p
  end.

(** ** Observable actions *)

Inductive event :=
| EvLoad (p : path) (sr : N)               (* a file was loaded at rate [sr] *)
| EvAugment (samples : wave) (sr : N)      (* the chain was called on [samples] *)
| EvFire (k : effect) (x : Q)              (* a transform applies, with parameter [x] *)
| EvMkdir (p : path)                       (* [mkdir] returned *)
| EvWrite (p : path) (data : wave) (sr : N)  (* a file was written *)
| EvPrint (line : string).                 (* a line on the console *)

(** ** World and the monad of the notebook's statements *)

Record World := {
  fs : gmap path node;
  rnd : RandomState;
  amb : ambient
}.

Definition set_fs (f : gmap path node) (w : World) : World :=
  {| fs := f; rnd := rnd w; amb := amb w |}.
Definition set_rnd (r : RandomState) (w : World) : World :=
  {| fs := fs w; rnd := r; amb := amb w |}.
Definition set_amb (a : ambient) (w : World) : World :=
  {| fs := fs w; rnd := rnd w; amb := a |}.

(** A statement returns or raises, leaves a world behind and a list of
    the actions it completed, oldest first.  After a raise the world and
    the actions are those reached at the raise. *)
Record result (A : Type) := Res {
  outcome_of : outcome A;
  world_of : World;
  events_of : list event
}.
Arguments Res {A} _ _ _.
Arguments outcome_of {A} _.
Arguments world_of {A} _.
Arguments events_of {A} _.

Definition M (A : Type) : Type := World -> result A.

Definition ret {A} (a : A) : M A := fun w => Res (Ok a) w [].

Definition raise {A} (e : exn) : M A := fun w => Res (Raise e) w [].

Definition bind {A B} (m : M A) (k : A -> M B) : M B := fun w =>
  match m w with
  | Res (Ok a) w1 ev1 =>
      let r := k a w1 in Res (outcome_of r) (world_of r) (ev1 ++ events_of r)
  | Res (Raise e) w1 ev1 => Res (Raise e) w1 ev1
  end.

Definition emit (e : event) : M unit := fun w => Res (Ok tt) w [e].

End Model.

Arguments Res {Libs A} _ _ _.
Arguments outcome_of {Libs A} _.
Arguments world_of {Libs A} _.
Arguments events_of {Libs A} _.

Declare Scope py_scope.
Delimit Scope py_scope with py.
Notation "x <- m ;; k" := (bind m (fun x => k))
  (at level 100, m at next level, right associativity) : py_scope.
Notation "m ;;; k" := (bind m (fun _ => k))
  (at level 100, right associativity) : py_scope.

Section Notebook.
Context `{Libs : Libraries}.
Local Open Scope py_scope.

(** Python's [for x in l: body x]. *)
Fixpoint for_each {A} (l : list A) (body : A -> M unit) : M unit :=
  match l with
  | [] => ret tt
  | x :: l' => body x ;;; for_each l' body
  end.

Definition print (line : string) : M unit := emit (EvPrint line).

(** *** [random] *)

Definition random_seed (seed : Z) : M unit := fun w =>
  Res (Ok tt) (set_rnd {| stream := mersenne seed; pos := 0 |} w) [].

Definition random_random : M Q := fun w =>
  Res (Ok (draw (rnd w))) (set_rnd (advance (rnd w)) w) [].

(** [random.uniform(a, b)] is [a + (b - a) * random()]. *)
Definition random_uniform (a b : Q) : M Q :=
  u <- random_random ;; ret (a + (b - a) * u)%Q.

(** *** audiomentations *)

Inductive transform :=
| AddGaussianNoise (min_amplitude max_amplitude p : Q)
| TimeStretch (min_rate max_rate p : Q)
| PitchShift (min_semitones max_semitones p : Q)
| Shift (min_shift max_shift : Q) (shift_unit : string) (p : Q).

Definition kind (t : transform) : effect :=
  match t with
  | AddGaussianNoise _ _ _ => Noise
  | TimeStretch _ _ _ => Stretch
  | PitchShift _ _ _ => Pitch
  | Shift _ _ _ _ => TimeShift
  end.

Definition window (t : transform) : Q * Q :=
  match t with
  | AddGaussianNoise a b _ | TimeStretch a b _ | PitchShift a b _ | Shift a b _ _ => (a, b)
  end.

Definition prob (t : transform) : Q :=
  match t with
  | AddGaussianNoise _ _ p | TimeStretch _ _ p | PitchShift _ _ p | Shift _ _ _ p => p
  end.

(** The library's processing, run on the ambient state. *)
Definition run_effect (k : effect) (x : Q) (sr : N) (samples : wave) : M wave := fun w =>
  let r := apply_effect k x sr samples (amb w) in
  Res (Ok (fst r)) (set_amb (snd r) w) [].

(** Modelled from the spec: the call [t(samples, sample_rate)] of an
    audiomentations transform, whose code is not in the repository.  Spec
    4.1: a transform is applied with its probability, decides by a random
    draw of its own, and takes its parameter at random in [min, max].
    Here one [random.random()] draw below [p] decides, and
    [random.uniform(min, max)] gives the parameter. *)
Definition call_transform (t : transform) (samples : wave) (sr : N) : M wave :=
  u <- random_random ;;
  if Qlt_le_dec u (prob t) then
    x <- random_uniform (fst (window t)) (snd (window t)) ;;
    emit (EvFire (kind t) x) ;;;
    run_effect (kind t) x sr samples
  else ret samples.

Fixpoint call_each (ts : list transform) (samples : wave) (sr : N) : M wave :=
  match ts with
  | [] => ret samples
  | t :: ts' => out <- call_transform t samples sr ;; call_each ts' out sr
  end.

(** Modelled from the spec: audiomentations' [Compose], whose code is not
    in the repository.  Spec 4.1: the transforms are applied in order to the
    waveform.  The chain as a whole has a probability too, 1 when the
    notebook gives none, and is not shuffled. *)
Record compose := Compose {
  transforms : list transform;
  compose_p : Q
}.

Definition call_compose (c : compose) (samples : wave) (sr : N) : M wave :=
  u <- random_random ;;
  if Qlt_le_dec u (compose_p c) then call_each (transforms c) samples sr
  else ret samples.

(** *** Setup cell: the chain *)

Definition augmenter : compose :=
  Compose
    [ AddGaussianNoise (fst (noise_amplitude AUGMENTATION_PARAMS))
                       (snd (noise_amplitude AUGMENTATION_PARAMS)) (1 # 2);
      TimeStretch (fst (time_stretch_rate AUGMENTATION_PARAMS))
                  (snd (time_stretch_rate AUGMENTATION_PARAMS)) (1 # 2);
      PitchShift (fst (pitch_shift_semitones AUGMENTATION_PARAMS))
                 (snd (pitch_shift_semitones AUGMENTATION_PARAMS)) (1 # 2);
      Shift (fst (shift_fraction AUGMENTATION_PARAMS))
            (snd (shift_fraction AUGMENTATION_PARAMS)) "fraction" (1 # 2) ]
    1.

(** [augmenter(samples=..., sample_rate=...)] *)
Definition call_augmenter (samples : wave) (sr : N) : M wave :=
  emit (EvAugment samples sr) ;;;
  call_compose augmenter samples sr.

(** *** librosa and soundfile *)

(** [librosa.load(p, sr=sr)].  On content that does not decode the load
    raises; which exception it is depends on the content and on the
    decoders installed (an empty file ends in EOFError, an unknown format
    in NoBackendError), and [NoBackendError] stands for it here.  Links
    and permissions are not part of the file system of the model. *)
Definition librosa_load (p : path) (sr : N) : M (wave * N) := fun w =>
  match node_at (fs w) p with
  | None => Res (Raise FileNotFoundError) w []
  | Some Dir => Res (Raise IsADirectoryError) w []
  | Some (File Undecodable) => Res (Raise NoBackendError) w []
  | Some (File (Audio sr0 y0)) => Res (Ok (resample sr0 sr y0, sr)) w [EvLoad p sr]
  end.

(** [sf.write(p, data, sr)]: the file is opened for writing, so an existing
    file is replaced; the directory must exist and [p] must not be one.
    The name ends in [.wav] and no subtype is given, so the samples are
    stored as 16-bit PCM: the file holds [pcm_16] of each sample written. *)
Definition sf_write (p : path) (data : wave) (sr : N) : M unit := fun w =>
  match node_at (fs w) (removelast p), node_at (fs w) p with
  | Some Dir, None | Some Dir, Some (File _) =>
      Res (Ok tt) (set_fs (<[p := File (Audio sr (map pcm_16 data))]> (fs w)) w)
          [EvWrite p data sr]
  | _, _ => Res (Raise LibsndfileError) w []
  end.

(** *** pathlib on the file system *)

(** [mkdir(parents=True, exist_ok=True)]: walking down from the root,
    missing directories are created and existing ones kept; a regular
    file on the way raises. *)
Fixpoint mkdir_from (done : path) (todo : list string) (f : gmap path node)
  : outcome (gmap path node) :=
  match todo with
  | [] => Ok f
  | c :: rest =>
      let q := done ++ [c] in
      match f !! q with
      | None => mkdir_from q rest (<[q := Dir]> f)
      | Some Dir => mkdir_from q rest f
      | Some (File _) =>
          Raise (match rest with [] => FileExistsError | _ => NotADirectoryError end)
      end
  end.

Definition mkdir (p : path) : M unit := fun w =>
  match mkdir_from [] p (fs w) with
  | Ok f => Res (Ok tt) (set_fs f w) [EvMkdir p]
  | Raise e => Res (Raise e) w []
  end.

(** [list(root.rglob("*" + lit))]: nothing when [root] is not a directory,
    otherwise every entry below it, regular file or directory, whose name
    matches, in the order the file system lists them. *)
Definition rglob_list (f : gmap path node) (root : path) (lit : string) : list path :=
  match node_at f root with
  | Some Dir =>
      filter (fun p => below root p && match_star lit (name p)) (map fst (map_to_list f))
  | _ => []
  end.

Definition rglob (root : path) (lit : string) : M (list path) := fun w =>
  Res (Ok (rglob_list (fs w) root lit)) w [].

Definition relative_to_or_raise (p root : path) : M path :=
  match relative_to p root with
  | Some r => ret r
  | None => raise ValueError
  end.

(** *** Per-file cell *)

(** The name [f"{basename}_aug{i+1}.wav"]. *)
Definition aug_name (basename : string) (i : nat) : string :=
  basename +:+ "_aug" +:+ pretty (i + 1) +:+ ".wav".

Definition augment_and_save (file_path : path) (sample_rate : N)
    (input_root output_root : path) : M unit :=
  relative_path <- relative_to_or_raise file_path input_root ;;
  let class_subdir := parent relative_path in
  let basename := stem relative_path in
  y_sr <- librosa_load file_path sample_rate ;;
  let y := fst y_sr in
  for_each (seq 0 NUM_AUGMENTATIONS) (fun i =>
    augmented <- call_augmenter y sample_rate ;;
    let output_subdir := joinpath output_root class_subdir in
    mkdir output_subdir ;;;
    let output_path := joinpath output_subdir [aug_name basename i] in
    sf_write output_path augmented sample_rate ;;;
    print ("Saved: " +:+ str output_path)).

(** *** Driver cell *)

Definition found_message (n : nat) : string :=
  "Found " +:+ pretty n +:+ " audio files in " +:+ INPUT_DIR.

Definition done_message : string :=
  String (ascii_of_nat 10) "✅ Done. Augmented files saved to: " +:+ OUTPUT_DIR.

Definition driver : M unit :=
  let input_root := Path INPUT_DIR in
  let output_root := Path OUTPUT_DIR in
  input_files <- rglob input_root ".wav" ;;
  print (found_message (length input_files)) ;;;
  for_each input_files (fun file_path =>
    augment_and_save file_path SAMPLE_RATE input_root output_root) ;;;
  print done_message.

(** The notebook run top to bottom: the setup cell seeds [random], then
    the driver cell runs. *)
Definition notebook : M unit :=
  random_seed RANDOM_SEED ;;;
  driver.

End Notebook.

(** ** A small concrete instance, for running the model *)

Module Toy.

(** Samples are integers, clipped to 16 bits when written; each effect
    marks the waveform with its number. *)
#[local] Instance libs : Libraries := {|
  sample := Z;
  ambient := unit;
  mersenne := fun seed n => (N.of_nat n * 3002399751580331 + Z.to_N seed)%N;
  resample := fun _ _ y => y;
  pcm_16 := fun z => Z.max (-32768) (Z.min 32767 z);
  apply_effect := fun k _ _ y a =>
    (match k with Noise => 1 | Stretch => 2 | Pitch => 3 | TimeShift => 4 end%Z :: y, a)
|}.

Definition raw : path := Path INPUT_DIR.
Definition out : path := Path OUTPUT_DIR.

(** [red/yes.wav] and [blue/no.wav] below the input directory. *)
Definition two_files : gmap path node :=
  list_to_map
    [ (["workspace"], Dir); (["workspace"; "data"], Dir); (raw, Dir);
      (raw ++ ["red"], Dir); (raw ++ ["blue"], Dir);
      (raw ++ ["red"; "yes.wav"], File (Audio 44100 [10; 20]%Z));
      (raw ++ ["blue"; "no.wav"], File (Audio 8000 [30]%Z)) ].

Definition yes_wav : path := raw ++ ["red"; "yes.wav"].
Definition no_wav : path := raw ++ ["blue"; "no.wav"].
Definition go_wav : path := raw ++ ["green"; "go.wav"].

(** Three files, listed in the order red, blue, green; the second is corrupt. *)
Definition corrupt_second : gmap path node :=
  list_to_map
    [ (["workspace"], Dir); (["workspace"; "data"], Dir); (raw, Dir);
      (raw ++ ["red"], Dir); (raw ++ ["blue"], Dir); (raw ++ ["green"], Dir);
      (yes_wav, File (Audio 44100 [10; 20]%Z));
      (no_wav, File Undecodable);
      (go_wav, File (Audio 16000 [40]%Z)) ].

(** No input directory at all. *)
Definition no_input_dir : gmap path node :=
  list_to_map [ (["workspace"], Dir); (["workspace"; "data"], Dir) ].

(** An input directory holding only a text file. *)
Definition no_audio : gmap path node :=
  list_to_map
    [ (["workspace"], Dir); (["workspace"; "data"], Dir); (raw, Dir);
      (raw ++ ["notes.txt"], File Undecodable) ].

(** An input directory holding only a directory named [clips.wav]. *)
Definition directory_named_wav : gmap path node :=
  list_to_map
    [ (["workspace"], Dir); (["workspace"; "data"], Dir); (raw, Dir);
      (raw ++ ["clips.wav"], Dir) ].

(** The two files again, with a regular file where the output root should be. *)
Definition output_root_is_a_file : gmap path node :=
  <[out := File Undecodable]> two_files.

(** The two files again, with a directory where [red/yes_aug2.wav] should go. *)
Definition target_is_a_directory : gmap path node :=
  <[out ++ ["red"; "yes_aug2.wav"] := Dir]>
    (<[out ++ ["red"] := Dir]> (<[out := Dir]> two_files)).

Definition zeros : RandomState := {| stream := fun _ => 0%N; pos := 0 |}.

Definition world (f : gmap path node) : World := {| fs := f; rnd := zeros; amb := tt |}.

(** The tree a first run leaves behind. *)
Definition after_first_run : gmap path node := fs (world_of (notebook (world two_files))).

End Toy.

(** ** Vocabulary of the properties *)

Section Vocabulary.
Context `{Libs : Libraries}.

(** [emits Q m]: every action [m] completes satisfies [Q], whatever the
    world it starts in and whether it returns or raises. *)
Definition emits {A} (Q : event -> Prop) (m : M A) : Prop :=
  forall w, Forall Q (events_of (m w)).

(** What an action says about the transforms [ts]: only firings occur,
    each of a transform of [ts] with a parameter in its window. *)
Definition fires_within (ts : list transform) (e : event) : Prop :=
  match e with
  | EvFire k x =>
      exists t, t ∈ ts /\ k = kind t /\
                (fst (window t) <= x)%Q /\ (x <= snd (window t))%Q
  | _ => False
  end.

(** [preserves J m]: [J] relates the actions completed so far to the
    current world, and running [m] keeps it, return or raise. *)
Definition preserves {A} (J : list event -> World -> Prop) (m : M A) : Prop :=
  forall pre w, J pre w -> J (pre ++ events_of (m w)) (world_of (m w)).

Definition is_fire (e : event) : Prop :=
  match e with EvFire _ _ => True | _ => False end.

(** The window AUGMENTATION_PARAMS holds for each effect. *)
Definition configured_window (k : effect) : Q * Q :=
  match k with
  | Noise => noise_amplitude AUGMENTATION_PARAMS
  | Stretch => time_stretch_rate AUGMENTATION_PARAMS
  | Pitch => pitch_shift_semitones AUGMENTATION_PARAMS
  | TimeShift => shift_fraction AUGMENTATION_PARAMS
  end.

Definition parameter_in_window (e : event) : Prop :=
  match e with
  | EvFire k x => (fst (configured_window k) <= x)%Q /\ (x <= snd (configured_window k))%Q
  | _ => True
  end.

(** The paths written, the waveforms handed to the chain and the effects
    that fired, each in order of occurrence. *)
Definition writes_of (evs : list event) : list path :=
  omap (fun e => match e with EvWrite p _ _ => Some p | _ => None end) evs.

Definition chain_inputs (evs : list event) : list wave :=
  omap (fun e => match e with EvAugment y _ => Some y | _ => None end) evs.

Definition fired (evs : list event) : list effect :=
  omap (fun e => match e with EvFire k _ => Some k | _ => None end) evs.

(** The effects that fired, each with the parameter it drew. *)
Definition firings (evs : list event) : list (effect * Q) :=
  omap (fun e => match e with EvFire k x => Some (k, x) | _ => None end) evs.

(** The waveform and the ambient state once the effects of [l] have been
    applied one after the other, each to the waveform the one before it
    produced. *)
Definition apply_in_order (sr : N) (l : list (effect * Q)) (y : wave) (a : ambient)
  : wave * ambient :=
  fold_left (fun ya kx => apply_effect (fst kx) (snd kx) sr (fst ya) (snd ya)) l (y, a).

(** [{basename}_aug{i}.wav] and the path it is written to, for the file
    at [rel] below the input root. *)
Definition output_name (basename : string) (i : nat) : string :=
  basename +:+ "_aug" +:+ pretty i +:+ ".wav".

Definition output_path (output_root rel : path) (i : nat) : path :=
  joinpath (joinpath output_root (parent rel)) [output_name (stem rel) i].

Local Open Scope py_scope.

(** One iteration of the loop of [augment_and_save] on a loaded waveform
    [y], and the loop. *)
Definition save_step (y : wave) (sample_rate : N) (output_root rel : path) (i : nat)
  : M unit :=
  augmented <- call_augmenter y sample_rate ;;
  let output_subdir := joinpath output_root (parent rel) in
  mkdir output_subdir ;;;
  let output_path := joinpath output_subdir [aug_name (stem rel) i] in
  sf_write output_path augmented sample_rate ;;;
  print ("Saved: " +:+ str output_path).

Definition save_loop (y : wave) (sample_rate : N) (output_root rel : path) : M unit :=
  for_each (seq 0 NUM_AUGMENTATIONS) (save_step y sample_rate output_root rel).

(** The driver cell once the input files are listed. *)
Definition driver_body (input_files : list path) : M unit :=
  print (found_message (length input_files)) ;;;
  for_each input_files (fun file_path =>
    augment_and_save file_path SAMPLE_RATE (Path INPUT_DIR) (Path OUTPUT_DIR)) ;;;
  print done_message.


(** The files the driver finds in a world. *)
Definition discovered (w : World) : list path :=
  rglob_list (fs w) (Path INPUT_DIR) ".wav".

(** [p] holds audio at rate [sr]. *)
Definition audio_at (sr : N) (f : gmap path node) (p : path) : Prop :=
  exists d, f !! p = Some (File (Audio sr d)).

(** Every file written so far holds audio at rate [sr]. *)
Definition written_hold_audio (sr : N) (pre : list event) (w : World) : Prop :=
  Forall (fun e => match e with EvWrite p _ _ => audio_at sr (fs w) p | _ => True end) pre.


(** The state of [random] whose next draw is the [n]-th of the stream, and
    whether a transform of probability one half applies on that draw. *)
Definition at_pos (st : RandomState) (n : nat) : RandomState :=
  {| stream := stream st; pos := n |}.

Definition gate (st : RandomState) (n : nat) : bool :=
  if Qlt_le_dec (draw (at_pos st n)) (1 # 2) then true else false.

(** The effects among the four whose flag is set, in chain order. *)
Definition selected (b1 b2 b3 b4 : bool) : list effect :=
  (if b1 then [Noise] else []) ++ (if b2 then [Stretch] else []) ++
  (if b3 then [Pitch] else []) ++ (if b4 then [TimeShift] else []).

(** A state of [random] whose draws make exactly the flagged transforms
    apply: raw output 0 is the draw 0, raw output 2^52 the draw 1/2. *)
Definition draws_for (b : bool) : list N :=
  if b then [0; 0]%N else [4503599627370496%N].

Definition tape_for (b1 b2 b3 b4 : bool) : RandomState :=
  {| stream := fun n =>
       nth n ([0%N] ++ draws_for b1 ++ draws_for b2 ++ draws_for b3 ++ draws_for b4) 0%N;
     pos := 0 |}.

End Vocabulary.

(** ** Vocabulary of the further properties *)

Section MoreVocabulary.
Context `{Libs : Libraries}.

(** [always R m]: the actions [m] completes satisfy [R] as a whole,
    whatever the world it starts in and whether it returns or raises. *)
Definition always {A : Type} (R : list event -> Prop) (m : M A) : Prop :=
  forall w, R (events_of (m w)).

(** [relates Rel m]: the file system [m] leaves is related by [Rel] to the
    one it found, return or raise. *)
Definition relates {A : Type} (Rel : gmap path node -> gmap path node -> Prop) (m : M A) : Prop :=
  forall w, Rel (fs w) (fs (world_of (m w))).

(** The console lines and the files loaded, in order of occurrence. *)
Definition console (evs : list event) : list string :=
  omap (fun e => match e with EvPrint line => Some line | _ => None end) evs.

Definition loads_of (evs : list event) : list path :=
  omap (fun e => match e with EvLoad p _ => Some p | _ => None end) evs.

(** The line [augment_and_save] prints after writing [p]. *)
Definition saved_line (p : path) : string := "Saved: " +:+ str p.

(** What is on the console tells which files were written. *)
Definition console_matches_writes (evs : list event) : Prop :=
  console evs = map saved_line (writes_of evs).

(** The output paths of the input file [f], empty when [f] is not below
    the input root. *)
Definition targets_of (f : path) : list path :=
  match relative_to f (Path INPUT_DIR) with
  | Some rel => map (output_path (Path OUTPUT_DIR) rel) (seq 1 NUM_AUGMENTATIONS)
  | None => []
  end.

(** [p] is on the way to the output root or below it. *)
Definition around_output (output_root p : path) : Prop :=
  p `prefix_of` output_root \/ output_root `prefix_of` p.

(** Nothing away from the output root differs between [f] and [f']. *)
Definition same_elsewhere (output_root : path) (f f' : gmap path node) : Prop :=
  forall p, ~ around_output output_root p -> f' !! p = f !! p.

(** No entry of [f] is gone in [f'] or has changed from directory to
    regular file or back. *)
Definition kinds_kept (f f' : gmap path node) : Prop :=
  forall p, (f !! p = Some Dir -> f' !! p = Some Dir) /\
            (forall c, f !! p = Some (File c) -> exists c', f' !! p = Some (File c')).

(** Every write recorded in [evs] is on disk in [w]: the file holds the
    16-bit encoding of the samples written, at the rate written. *)
Definition written_is_stored (evs : list event) (w : World) : Prop :=
  Forall (fun e => match e with
                   | EvWrite p d sr => fs w !! p = Some (File (Audio sr (map pcm_16 d)))
                   | _ => True
                   end) evs.

(** Every write recorded in [evs] is on disk in [w], and is one of the
    copies 1 to [s] of the file at [rel]. *)
Definition stored_up_to (output_root rel : path) (s : nat) (evs : list event) (w : World)
  : Prop :=
  Forall (fun e => match e with
                   | EvWrite p d sr =>
                       fs w !! p = Some (File (Audio sr (map pcm_16 d))) /\
                       exists i, 1 <= i <= s /\ p = output_path output_root rel i
                   | _ => True
                   end) evs.

(** The characters of a string. *)
Fixpoint chars (s : string) : list ascii :=
  match s with
  | EmptyString => []
  | String c s' => c :: chars s'
  end.

End MoreVocabulary.

(** ** More concrete trees *)

Module MoreToy.
Import Toy.
#[local] Existing Instance Toy.libs.

(** Two files of one directory named [.wav] and [.wav.wav]: both have the
    stem [.wav]. *)
Definition shared_stem : gmap path node :=
  list_to_map
    [ (["workspace"], Dir); (["workspace"; "data"], Dir); (raw, Dir);
      (raw ++ [".wav"], File (Audio 16000 [1]%Z));
      (raw ++ [".wav.wav"], File (Audio 16000 [2]%Z)) ].

(** The two files again, with a regular file where the directory [red] of
    the output should be. *)
Definition class_directory_is_a_file : gmap path node :=
  <[out ++ ["red"] := File Undecodable]> (<[out := Dir]> two_files).

End MoreToy.

(** * Properties *)

(** ** Paths and names *)

Example Path_input : Path "/workspace/data/raw_audio" = ["workspace"; "data"; "raw_audio"].
Proof. reflexivity. Qed.

Example stem_yes : stem ["red"; "yes.wav"] = "yes".
Proof. reflexivity. Qed.

Example stem_dotfile : stem [".wav"] = ".wav".
Proof. reflexivity. Qed.

Example stem_two_dots : stem ["a.b.wav"] = "a.b".
Proof. reflexivity. Qed.

Example match_wav : match_star ".wav" "yes.wav" = true /\ match_star ".wav" "yes.mp3" = false.
Proof. split; reflexivity. Qed.

(** Two names in one directory can share a stem, and so their output names. *)
Example stem_shared : stem [".wav.wav"] = stem [".wav"].
Proof. reflexivity. Qed.

(** ** Strings *)

Lemma append_length (s t : string) : String.length (s +:+ t) = String.length s + String.length t.
Proof. induction s as [|c s IH]; simpl; [reflexivity | now rewrite IH]. Qed.

Lemma append_inj_r (s1 s2 t : string) : s1 +:+ t = s2 +:+ t -> s1 = s2.
Proof.
  revert s2; induction s1 as [|c s1 IH]; intros [|d s2] H.
  - reflexivity.
  - apply (f_equal String.length) in H. rewrite !append_length in H. simpl in H. lia.
  - apply (f_equal String.length) in H. rewrite !append_length in H. simpl in H. lia.
  - simpl in H. injection H as -> H. f_equal. now apply IH.
Qed.

(** ** The random module *)

Lemma draw_unit (st : RandomState) : (0 <= draw st)%Q /\ (draw st < 1)%Q.
Proof.
  unfold draw, Qle, Qlt; simpl.
  assert (stream st (pos st) mod Npos two53 < Npos two53)%N as Hlt
    by (apply N.mod_lt; discriminate).
  set (k := (stream st (pos st) mod Npos two53)%N) in *.
  lia.
Qed.

Lemma uniform_between (a b u : Q) :
  (a <= b)%Q -> (0 <= u)%Q -> (u < 1)%Q -> (a <= a + (b - a) * u)%Q /\ (a + (b - a) * u <= b)%Q.
Proof. intros Hab H0 H1. split; nra. Qed.

Section Reasoning.
Context `{Libs : Libraries}.
Local Open Scope py_scope.

(** ** The monad *)

Lemma bind_Ok {A B} (m : M A) (k : A -> M B) w a w1 ev1 :
  m w = Res (Ok a) w1 ev1 ->
  bind m k w = Res (outcome_of (k a w1)) (world_of (k a w1)) (ev1 ++ events_of (k a w1)).
Proof. intros E. unfold bind. now rewrite E. Qed.

Lemma bind_Raise {A B} (m : M A) (k : A -> M B) w e w1 ev1 :
  m w = Res (Raise e) w1 ev1 -> bind m k w = Res (Raise e) w1 ev1.
Proof. intros E. unfold bind. now rewrite E. Qed.

Lemma emits_ret {A} Q (a : A) : emits Q (ret a).
Proof. intros w. constructor. Qed.

Lemma emits_raise {A} Q e : emits Q (@raise _ A e).
Proof. intros w. constructor. Qed.

Lemma emits_emit (Q : event -> Prop) e : Q e -> emits Q (emit e).
Proof. intros H w. simpl. now repeat constructor. Qed.

Lemma emits_bind {A B} Q (m : M A) (k : A -> M B) :
  emits Q m -> (forall a, emits Q (k a)) -> emits Q (bind m k).
Proof.
  intros Hm Hk w. unfold bind. specialize (Hm w).
  destruct (m w) as [[a|e] w1 ev1]; simpl in *; [ | assumption].
  apply Forall_app; split; [assumption | apply Hk].
Qed.

Lemma emits_for_each {A} Q (l : list A) (body : A -> M unit) :
  (forall x, x ∈ l -> emits Q (body x)) -> emits Q (for_each l body).
Proof.
  induction l as [|x l IH]; intros H; simpl.
  - apply emits_ret.
  - apply emits_bind; [apply H; left | intros _; apply IH].
    intros y Hy. apply H. now right.
Qed.

Lemma emits_weaken {A} (Q Q' : event -> Prop) (m : M A) :
  (forall e, Q e -> Q' e) -> emits Q m -> emits Q' m.
Proof. intros H Hm w. eapply Forall_impl; [apply Hm | exact H]. Qed.

(** The statements that touch neither console nor files. *)
Lemma emits_random_random Q : emits Q random_random.
Proof. intros w. constructor. Qed.

(** ** The chain *)

Lemma fires_within_mono ts ts' e :
  (forall t, t ∈ ts -> t ∈ ts') -> fires_within ts e -> fires_within ts' e.
Proof.
  intros Hsub. destruct e; simpl; try tauto.
  intros (t & Ht & Hk & Hw). exists t. auto.
Qed.

Lemma call_transform_fires t y sr :
  (fst (window t) <= snd (window t))%Q ->
  emits (fires_within [t]) (call_transform t y sr).
Proof.
  intros Hw w. unfold call_transform, bind; simpl.
  destruct (Qlt_le_dec _ _); simpl; [ | constructor].
  repeat constructor.
  exists t. split; [left | split; [reflexivity | ]].
  destruct (draw_unit (advance (rnd w))).
  now apply uniform_between.
Qed.

Lemma call_each_fires ts sr :
  Forall (fun t => (fst (window t) <= snd (window t))%Q) ts ->
  forall y, emits (fires_within ts) (call_each ts y sr).
Proof.
  induction 1 as [|t ts Ht Hts IH]; intros y; simpl.
  - apply emits_ret.
  - apply emits_bind.
    + eapply emits_weaken; [ | apply call_transform_fires, Ht].
      intros e. apply fires_within_mono. intros t' Ht'.
      apply list_elem_of_singleton in Ht' as ->. left.
    + intros out. eapply emits_weaken; [ | apply IH].
      intros e. apply fires_within_mono. intros t' Ht'. now right.
Qed.

End Reasoning.

(** ** What the notebook's statements emit *)

Section Events.
Context `{Libs : Libraries}.
Local Open Scope py_scope.

Lemma emits_librosa_load (Q : event -> Prop) p sr :
  Q (EvLoad p sr) -> emits Q (librosa_load p sr).
Proof.
  intros H w. unfold librosa_load.
  destruct (node_at (fs w) p) as [[|[sr0 y0|]]|]; simpl; repeat constructor; exact H.
Qed.

Lemma emits_mkdir (Q : event -> Prop) p : Q (EvMkdir p) -> emits Q (mkdir p).
Proof.
  intros H w. unfold mkdir.
  destruct (mkdir_from [] p (fs w)); simpl; repeat constructor; exact H.
Qed.

Lemma emits_sf_write (Q : event -> Prop) p d sr :
  Q (EvWrite p d sr) -> emits Q (sf_write p d sr).
Proof.
  intros H w. unfold sf_write.
  destruct (node_at (fs w) (removelast p)) as [[|c]|];
    destruct (node_at (fs w) p) as [[|c']|]; simpl; repeat constructor; exact H.
Qed.

Lemma aug_name_output_name basename i : aug_name basename i = output_name basename (i + 1).
Proof. reflexivity. Qed.

Lemma augment_and_save_unfold f sr input_root output_root :
  augment_and_save f sr input_root output_root =
  (rel <- relative_to_or_raise f input_root ;;
   y_sr <- librosa_load f sr ;;
   save_loop (fst y_sr) sr output_root rel).
Proof. reflexivity. Qed.

Lemma save_loop_emits (Q : event -> Prop) y sr output_root rel :
  emits Q (call_augmenter y sr) ->
  (forall p, Q (EvMkdir p)) ->
  (forall i d, 1 <= i <= NUM_AUGMENTATIONS -> Q (EvWrite (output_path output_root rel i) d sr)) ->
  (forall s, Q (EvPrint ("Saved: " +:+ s))) ->
  emits Q (save_loop y sr output_root rel).
Proof.
  intros Ha Hm Hw Hp. unfold save_loop.
  apply emits_for_each. intros i Hi.
  apply elem_of_seq in Hi. unfold save_step.
  apply emits_bind; [exact Ha | intros augmented].
  apply emits_bind; [apply emits_mkdir, Hm | intros _].
  apply emits_bind; [ | intros _; apply emits_emit, Hp].
  apply emits_sf_write. rewrite aug_name_output_name.
  apply (Hw (i + 1)). lia.
Qed.

Lemma bind_ret {A B} (a : A) (k : A -> M B) w : bind (ret a) k w = k a w.
Proof. unfold bind, ret. simpl. destruct (k a w); reflexivity. Qed.

Lemma bind_quiet {A B} (m : M A) (k : A -> M B) w a w1 :
  m w = Res (Ok a) w1 [] -> bind m k w = k a w1.
Proof. intros E. unfold bind. rewrite E. simpl. destruct (k a w1); reflexivity. Qed.

Lemma bind_raise {A B} e (k : A -> M B) w : bind (raise e) k w = Res (Raise e) w [].
Proof. reflexivity. Qed.

Lemma augment_and_save_emits (Q : event -> Prop) f sr input_root output_root :
  Q (EvLoad f sr) ->
  (forall y, emits Q (call_augmenter y sr)) ->
  (forall p, Q (EvMkdir p)) ->
  (forall rel i d, relative_to f input_root = Some rel -> 1 <= i <= NUM_AUGMENTATIONS ->
                   Q (EvWrite (output_path output_root rel i) d sr)) ->
  (forall s, Q (EvPrint ("Saved: " +:+ s))) ->
  emits Q (augment_and_save f sr input_root output_root).
Proof.
  intros Hl Ha Hm Hw Hp w. rewrite augment_and_save_unfold.
  unfold relative_to_or_raise.
  destruct (relative_to f input_root) as [rel|] eqn:Erel.
  - rewrite bind_ret. revert w.
    apply emits_bind; [now apply emits_librosa_load | intros y_sr].
    apply save_loop_emits; auto.
  - rewrite bind_raise. constructor.
Qed.

Lemma driver_unfold w : driver w = driver_body (discovered w) w.
Proof. unfold driver. now rewrite (bind_quiet _ _ w (discovered w) w). Qed.

Lemma notebook_unfold w :
  notebook w = driver (set_rnd {| stream := mersenne RANDOM_SEED; pos := 0 |} w).
Proof. unfold notebook. now rewrite (bind_quiet _ _ w tt (set_rnd {| stream := mersenne RANDOM_SEED; pos := 0 |} w)). Qed.

Lemma driver_events (Q : event -> Prop) (w : World) :
  (forall f, Q (EvLoad f SAMPLE_RATE)) ->
  (forall y, emits Q (call_augmenter y SAMPLE_RATE)) ->
  (forall p, Q (EvMkdir p)) ->
  (forall f rel i d,
      f ∈ discovered w -> relative_to f (Path INPUT_DIR) = Some rel ->
      1 <= i <= NUM_AUGMENTATIONS ->
      Q (EvWrite (output_path (Path OUTPUT_DIR) rel i) d SAMPLE_RATE)) ->
  (forall s, Q (EvPrint s)) ->
  Forall Q (events_of (driver w)).
Proof.
  intros Hl Ha Hm Hw Hp. rewrite driver_unfold.
  assert (emits Q (driver_body (discovered w))) as Hall; [ | apply Hall].
  unfold driver_body.
  apply emits_bind; [apply emits_emit, Hp | intros _].
  apply emits_bind; [ | intros _; apply emits_emit, Hp].
  apply emits_for_each. intros f Hf.
  apply augment_and_save_emits; auto.
  intros rel i d. now apply Hw.
Qed.

Lemma notebook_events (Q : event -> Prop) (w : World) :
  (forall f, Q (EvLoad f SAMPLE_RATE)) ->
  (forall y, emits Q (call_augmenter y SAMPLE_RATE)) ->
  (forall p, Q (EvMkdir p)) ->
  (forall f rel i d,
      f ∈ discovered w -> relative_to f (Path INPUT_DIR) = Some rel ->
      1 <= i <= NUM_AUGMENTATIONS ->
      Q (EvWrite (output_path (Path OUTPUT_DIR) rel i) d SAMPLE_RATE)) ->
  (forall s, Q (EvPrint s)) ->
  Forall Q (events_of (notebook w)).
Proof.
  intros Hl Ha Hm Hw Hp. rewrite notebook_unfold.
  apply driver_events; auto.
Qed.

End Events.

Section Chain.
Context `{Libs : Libraries}.
Local Open Scope py_scope.

Lemma augmenter_windows :
  Forall (fun t => (fst (window t) <= snd (window t))%Q /\
                   window t = configured_window (kind t) /\
                   (prob t == 1 # 2)%Q)
         (transforms augmenter).
Proof. repeat constructor; simpl; unfold Qle; simpl; lia. Qed.

Lemma call_augmenter_emits (Q : event -> Prop) y sr :
  Q (EvAugment y sr) ->
  (forall k x, parameter_in_window (EvFire k x) -> Q (EvFire k x)) ->
  emits Q (call_augmenter y sr).
Proof.
  intros Ha Hf. unfold call_augmenter.
  apply emits_bind; [now apply emits_emit | intros _].
  unfold call_compose. apply emits_bind; [apply emits_random_random | intros u].
  destruct (Qlt_le_dec u (compose_p augmenter)); [ | apply emits_ret].
  eapply emits_weaken; [ | apply call_each_fires].
  - intros [ | | k x | | | ]; simpl; try tauto.
    intros (t & Ht & -> & Hlo & Hhi). apply Hf. simpl.
    pose proof augmenter_windows as Hall.
    rewrite Forall_forall in Hall. destruct (Hall t Ht) as (_ & <- & _).
    split; assumption.
  - eapply Forall_impl; [apply augmenter_windows | ]. simpl. tauto.
Qed.

Lemma fired_app evs1 evs2 : fired (evs1 ++ evs2) = fired evs1 ++ fired evs2.
Proof. apply omap_app. Qed.

Lemma gate_half st n :
  gate st n = true <-> (stream st n mod Npos two53 < 4503599627370496)%N.
Proof.
  unfold gate. destruct (Qlt_le_dec _ _) as [H|H];
    unfold draw, Qlt, Qle in H; simpl in H;
    set (k := (stream st n mod Npos two53)%N) in *; unfold two53 in H.
  - split; [intros _; lia | reflexivity].
  - split; [discriminate | lia].
Qed.

(** One transform of probability one half: it reads the next draw to
    decide, and one more draw when it applies. *)
Lemma call_transform_step t y sr w :
  prob t = 1 # 2 ->
  exists out w1 evs,
    call_transform t y sr w = Res (Ok out) w1 evs /\
    fired evs = (if gate (rnd w) (pos (rnd w)) then [kind t] else []) /\
    stream (rnd w1) = stream (rnd w) /\
    pos (rnd w1) = (if gate (rnd w) (pos (rnd w)) then 2 else 1) + pos (rnd w).
Proof.
  intros Hp. unfold call_transform, bind, gate, at_pos; simpl. rewrite Hp.
  destruct (rnd w) as [s n]; simpl.
  destruct (Qlt_le_dec _ _); simpl; eauto 10.
Qed.

Ltac transform_step o w' ev E F S P :=
  match goal with
  | |- context [bind (call_transform ?t ?y ?sr) _ ?w] =>
      destruct (call_transform_step t y sr w eq_refl) as (o & w' & ev & E & F & S & P);
      rewrite (bind_Ok _ _ _ _ _ _ E); cbn [events_of]
  end.

Lemma gate_stream st st' n : stream st = stream st' -> gate st n = gate st' n.
Proof. intros E. unfold gate, at_pos, draw; simpl. now rewrite E. Qed.

(** One invocation of the chain: the four transforms decide in chain
    order, each on a draw of its own. *)
Lemma call_augmenter_gates y sr w :
  exists n1 n2 n3 n4,
    pos (rnd w) < n1 /\ n1 < n2 /\ n2 < n3 /\ n3 < n4 /\
    fired (events_of (call_augmenter y sr w)) =
      selected (gate (rnd w) n1) (gate (rnd w) n2) (gate (rnd w) n3) (gate (rnd w) n4).
Proof.
  unfold call_augmenter.
  rewrite (bind_Ok _ _ w tt w [EvAugment y sr] eq_refl). cbn [events_of].
  rewrite fired_app. change (fired [EvAugment y sr]) with (@nil effect). rewrite app_nil_l.
  unfold call_compose.
  rewrite (bind_Ok _ _ w (draw (rnd w)) (set_rnd (advance (rnd w)) w) [] eq_refl).
  cbn [events_of]. rewrite app_nil_l.
  destruct (Qlt_le_dec (draw (rnd w)) (compose_p augmenter)) as [_|Hge].
  2:{ exfalso. destruct (draw_unit (rnd w)) as [_ Hlt]. simpl in Hge.
      apply (Qlt_irrefl 1). eapply Qle_lt_trans; eassumption. }
  set (w1 := set_rnd (advance (rnd w)) w).
  cbn [transforms augmenter call_each].
  transform_step o1 w2 ev1 E1 F1 S1 P1.
  transform_step o2 w3 ev2 E2 F2 S2 P2.
  transform_step o3 w4 ev3 E3 F3 S3 P3.
  transform_step o4 w5 ev4 E4 F4 S4 P4.
  cbn [events_of ret].
  rewrite !fired_app, F1, F2, F3, F4, app_nil_r.
  assert (stream (rnd w1) = stream (rnd w)) as S0 by reflexivity.
  assert (pos (rnd w1) = S (pos (rnd w))) as P0 by reflexivity.
  rewrite (gate_stream (rnd w1) (rnd w)) by assumption.
  rewrite (gate_stream (rnd w2) (rnd w)) by congruence.
  rewrite (gate_stream (rnd w3) (rnd w)) by congruence.
  rewrite (gate_stream (rnd w4) (rnd w)) by congruence.
  exists (pos (rnd w1)), (pos (rnd w2)), (pos (rnd w3)), (pos (rnd w4)).
  repeat split; try reflexivity.
  - lia.
  - rewrite P1. destruct (gate (rnd w1) (pos (rnd w1))); lia.
  - rewrite P2. destruct (gate (rnd w2) (pos (rnd w2))); lia.
  - rewrite P3. destruct (gate (rnd w3) (pos (rnd w3))); lia.
Qed.

Lemma tape_for_fires y sr b1 b2 b3 b4 f a :
  fired (events_of (call_augmenter y sr {| fs := f; rnd := tape_for b1 b2 b3 b4; amb := a |}))
  = selected b1 b2 b3 b4.
Proof. destruct b1, b2, b3, b4; vm_compute; reflexivity. Qed.

(** *** What the chain returns *)

Lemma firings_app evs1 evs2 : firings (evs1 ++ evs2) = firings evs1 ++ firings evs2.
Proof. apply omap_app. Qed.

Lemma firings_fired evs : map fst (firings evs) = fired evs.
Proof.
  induction evs as [|e evs IH]; [reflexivity | ].
  destruct e; simpl; try exact IH. f_equal. exact IH.
Qed.

Lemma apply_in_order_app sr l1 l2 y a :
  apply_in_order sr (l1 ++ l2) y a =
  apply_in_order sr l2 (fst (apply_in_order sr l1 y a)) (snd (apply_in_order sr l1 y a)).
Proof.
  unfold apply_in_order. rewrite fold_left_app.
  generalize (fold_left (fun ya kx => apply_effect (fst kx) (snd kx) sr (fst ya) (snd ya))
                        l1 (y, a)).
  now intros [y1 a1].
Qed.

(** One transform: when it applies, what it returns is the library's
    effect on the waveform it was given, with the parameter it drew; when
    it does not, it returns that waveform. *)
Lemma call_transform_applies t y sr w :
  exists out w1 evs,
    call_transform t y sr w = Res (Ok out) w1 evs /\
    (out, amb w1) = apply_in_order sr (firings evs) y (amb w) /\
    fs w1 = fs w.
Proof.
  unfold call_transform, bind; simpl.
  destruct (Qlt_le_dec _ _); simpl.
  - do 3 eexists. split; [reflexivity | split; [ | reflexivity]].
    unfold apply_in_order. simpl. now destruct (apply_effect _ _ _ _ _).
  - do 3 eexists. split; [reflexivity | split; reflexivity].
Qed.

(** The transforms run one after the other, each on the waveform the one
    before it returned. *)
Lemma call_each_applies ts sr : forall y w,
  exists out w1 evs,
    call_each ts y sr w = Res (Ok out) w1 evs /\
    (out, amb w1) = apply_in_order sr (firings evs) y (amb w) /\
    fs w1 = fs w.
Proof.
  induction ts as [|t ts IH]; intros y w; simpl.
  - unfold ret. do 3 eexists. split; [reflexivity | split; reflexivity].
  - destruct (call_transform_applies t y sr w) as (o1 & w1 & ev1 & E1 & A1 & F1).
    rewrite (bind_Ok _ _ _ _ _ _ E1).
    destruct (IH o1 w1) as (o2 & w2 & ev2 & E2 & A2 & F2). rewrite E2. simpl.
    do 3 eexists. split; [reflexivity | split; [ | congruence]].
    rewrite firings_app, apply_in_order_app, <- A1. exact A2.
Qed.

Lemma call_augmenter_applies y sr w :
  let r := call_augmenter y sr w in
  outcome_of r = Ok (fst (apply_in_order sr (firings (events_of r)) y (amb w))) /\
  amb (world_of r) = snd (apply_in_order sr (firings (events_of r)) y (amb w)) /\
  fs (world_of r) = fs w.
Proof.
  cbv zeta. unfold call_augmenter.
  rewrite (bind_Ok _ _ w tt w [EvAugment y sr] eq_refl). cbn [outcome_of world_of events_of].
  rewrite firings_app. change (firings [EvAugment y sr]) with (@nil (effect * Q)).
  rewrite app_nil_l. unfold call_compose.
  rewrite (bind_Ok _ _ w (draw (rnd w)) (set_rnd (advance (rnd w)) w) [] eq_refl).
  cbn [outcome_of world_of events_of]. rewrite app_nil_l.
  destruct (Qlt_le_dec (draw (rnd w)) (compose_p augmenter)) as [_|_].
  - destruct (call_each_applies (transforms augmenter) sr y (set_rnd (advance (rnd w)) w))
      as (out & w1 & evs & E & A & F).
    rewrite E. cbn [outcome_of world_of events_of]. cbn [amb set_rnd] in A.
    rewrite <- A. repeat split. exact F.
  - repeat split.
Qed.

(** C5: one invocation of the chain runs the four transforms additive
    noise, time stretch, pitch shift, time shift in that order, each with
    probability parameter one half; a transform applies exactly when its
    own draw falls in the lower half of the generator's 2^53 equally
    likely outputs; the waveform the invocation returns is the one
    obtained by applying to its input the effects that fired, in the order
    they fired and each to the result of the one before, with the
    parameters they drew; and every subset of the four, from none to all,
    is the set that applies for some state of the generator. *)
Theorem chain_is_four_gated_transforms_in_order :
  map kind (transforms augmenter) = [Noise; Stretch; Pitch; TimeShift] /\
  Forall (fun t => prob t = 1 # 2) (transforms augmenter) /\
  (forall st n, gate st n = true <-> (stream st n mod Npos two53 < 4503599627370496)%N) /\
  (forall y sr w, exists n1 n2 n3 n4,
      pos (rnd w) < n1 /\ n1 < n2 /\ n2 < n3 /\ n3 < n4 /\
      fired (events_of (call_augmenter y sr w)) =
        selected (gate (rnd w) n1) (gate (rnd w) n2) (gate (rnd w) n3) (gate (rnd w) n4)) /\
  (forall y sr w,
      let r := call_augmenter y sr w in
      map fst (firings (events_of r)) = fired (events_of r) /\
      outcome_of r = Ok (fst (apply_in_order sr (firings (events_of r)) y (amb w))) /\
      amb (world_of r) = snd (apply_in_order sr (firings (events_of r)) y (amb w)) /\
      fs (world_of r) = fs w) /\
  (forall y sr b1 b2 b3 b4, exists st, forall f a,
      fired (events_of (call_augmenter y sr {| fs := f; rnd := st; amb := a |}))
      = selected b1 b2 b3 b4).
Proof.
  split; [reflexivity | ].
  split; [repeat constructor | ].
  split; [apply gate_half | ].
  split; [apply call_augmenter_gates | ].
  split; [intros y sr w; split; [apply firings_fired | apply call_augmenter_applies] | ].
  intros y sr b1 b2 b3 b4. exists (tape_for b1 b2 b3 b4).
  intros f a. apply tape_for_fires.
Qed.

(** C8: whenever a transform of the chain fires, the parameter it draws
    lies within the window that AUGMENTATION_PARAMS configures for it;
    this holds for one invocation of the chain on any waveform and in any
    world, and so for every firing of a whole run of the notebook. *)
Theorem fired_parameter_within_configured_window :
  forall (w : World),
    (forall y sr, Forall parameter_in_window (events_of (call_augmenter y sr w))) /\
    Forall parameter_in_window (events_of (notebook w)).
Proof.
  intros w. split.
  - intros y sr. apply call_augmenter_emits; simpl; auto.
  - apply notebook_events; simpl; auto.
    intros y sr. apply call_augmenter_emits; simpl; auto.
Qed.

End Chain.

(** ** The per-file routine *)

Section PerFile.
Context `{Libs : Libraries}.
Local Open Scope py_scope.

(** *** Loops *)

Lemma for_each_app {A} (l1 l2 : list A) (body : A -> M unit) w :
  for_each (l1 ++ l2) body w = (for_each l1 body ;;; for_each l2 body) w.
Proof.
  revert w; induction l1 as [|x l1 IH]; intros w; simpl.
  - now rewrite bind_ret.
  - unfold bind in *.
    destruct (body x w) as [[[]|e] w1 ev1]; [ | reflexivity].
    rewrite IH.
    destruct (for_each l1 body w1) as [[[]|e] w2 ev2]; simpl; [ | reflexivity].
    now rewrite app_assoc.
Qed.

(** A loop that returns has run every iteration: what a projection of the
    actions collects is what the iterations contribute, in order. *)
Lemma for_each_collect {A X} (proj : list event -> list X) (h : A -> list X)
      (l : list A) (body : A -> M unit) :
  proj [] = [] ->
  (forall e1 e2, proj (e1 ++ e2) = proj e1 ++ proj e2) ->
  (forall x w, outcome_of (body x w) = Ok tt -> proj (events_of (body x w)) = h x) ->
  forall w, outcome_of (for_each l body w) = Ok tt ->
            proj (events_of (for_each l body w)) = concat (map h l).
Proof.
  intros Hnil Happ Hbody. induction l as [|x l IH]; intros w; simpl.
  - intros _. exact Hnil.
  - unfold bind. specialize (Hbody x w).
    destruct (body x w) as [[[]|e] w1 ev1]; simpl in *; [ | discriminate].
    intros Hok. rewrite Happ, Hbody, IH by auto. reflexivity.
Qed.


(** *** The chain never raises and leaves the files alone *)

Lemma call_transform_ok t y sr w :
  exists out w1 evs, call_transform t y sr w = Res (Ok out) w1 evs /\ fs w1 = fs w.
Proof.
  unfold call_transform, bind; simpl.
  destruct (Qlt_le_dec _ _); simpl; eauto 10.
Qed.

Lemma call_each_ok ts sr : forall y w,
  exists out w1 evs, call_each ts y sr w = Res (Ok out) w1 evs /\ fs w1 = fs w.
Proof.
  induction ts as [|t ts IH]; intros y w; simpl.
  - unfold ret. eauto 10.
  - destruct (call_transform_ok t y sr w) as (o1 & w1 & ev1 & E1 & F1).
    rewrite (bind_Ok _ _ _ _ _ _ E1).
    destruct (IH o1 w1) as (o2 & w2 & ev2 & E2 & F2). rewrite E2. simpl.
    do 3 eexists. split; [reflexivity | congruence].
Qed.

Lemma call_augmenter_ok y sr w :
  exists out w1 evs,
    call_augmenter y sr w = Res (Ok out) w1 (EvAugment y sr :: evs) /\
    fs w1 = fs w /\ Forall is_fire evs.
Proof.
  unfold call_augmenter.
  rewrite (bind_Ok _ _ w tt w [EvAugment y sr] eq_refl).
  unfold call_compose.
  rewrite (bind_Ok _ _ w (draw (rnd w)) (set_rnd (advance (rnd w)) w) [] eq_refl).
  destruct (Qlt_le_dec _ _).
  - assert (Forall (fires_within (transforms augmenter))
              (events_of (call_each (transforms augmenter) y sr
                                    (set_rnd (advance (rnd w)) w)))) as Hev.
    { apply call_each_fires.
      eapply Forall_impl; [apply augmenter_windows | ]. simpl. tauto. }
    destruct (call_each_ok (transforms augmenter) sr y (set_rnd (advance (rnd w)) w))
      as (o & w1 & evs & E & F).
    rewrite E in *. simpl in *. do 3 eexists. split; [reflexivity | split; [exact F | ]].
    eapply Forall_impl; [exact Hev | ]. now intros [].
  - simpl. do 3 eexists. split; [reflexivity | split; [reflexivity | constructor]].
Qed.

Lemma fires_write_nothing evs : Forall is_fire evs -> writes_of evs = [] /\ chain_inputs evs = [].
Proof.
  induction 1 as [|e evs He _ [IH1 IH2]]; [split; reflexivity | ].
  destruct e; try contradiction. simpl. auto.
Qed.

(** *** Directories *)

(** [mkdir] only adds directories where there was nothing. *)
Lemma mkdir_from_lookup todo : forall done f f' p,
  mkdir_from done todo f = Ok f' ->
  f' !! p = f !! p \/ (f !! p = None /\ f' !! p = Some Dir).
Proof.
  induction todo as [|c rest IH]; intros done f f' p; simpl.
  - intros [= ->]. now left.
  - destruct (f !! (done ++ [c])) as [[|c']|] eqn:E; try discriminate.
    + apply IH.
    + intros H. destruct (IH _ _ _ p H) as [Hp|[Hp1 Hp2]].
      * rewrite Hp. destruct (decide (p = done ++ [c])) as [->|Hne].
        -- right. now rewrite lookup_insert_eq.
        -- left. now rewrite lookup_insert_ne.
      * right. split; [ | assumption].
        destruct (decide (p = done ++ [c])) as [->|Hne]; [assumption | ].
        now rewrite lookup_insert_ne in Hp1.
Qed.

(** After [mkdir] the directory exists. *)
Lemma mkdir_from_dir todo : forall done f f',
  mkdir_from done todo f = Ok f' -> todo <> [] -> f' !! (done ++ todo) = Some Dir.
Proof.
  induction todo as [|c rest IH]; intros done f f'; simpl; [congruence | ].
  intros H _.
  assert (forall g, g !! (done ++ [c]) = Some Dir ->
                    mkdir_from (done ++ [c]) rest g = Ok f' ->
                    f' !! (done ++ c :: rest) = Some Dir) as Hgo.
  { intros g Hg Hrest. destruct rest as [|c2 rest].
    - simpl in Hrest. injection Hrest as <-. exact Hg.
    - replace (done ++ c :: c2 :: rest) with ((done ++ [c]) ++ c2 :: rest)
        by now rewrite <- app_assoc.
      eapply IH; [exact Hrest | discriminate]. }
  destruct (f !! (done ++ [c])) as [[|c']|] eqn:E; try discriminate.
  - eapply Hgo; eassumption.
  - eapply Hgo; [ | eassumption]. now rewrite lookup_insert_eq.
Qed.

Lemma mkdir_node_at p f f' : mkdir_from [] p f = Ok f' -> node_at f' p = Some Dir.
Proof.
  intros H. destruct p as [|c p]; [reflexivity | ].
  change (f' !! ([] ++ c :: p) = Some Dir). eapply mkdir_from_dir; [eassumption | discriminate].
Qed.


(** *** One iteration *)

(** An iteration calls the chain on [y], which returns; then [mkdir]
    raises, or the write raises because the target is a directory, or the
    file is written and reported. *)
Lemma save_step_run y sr output_root rel i w :
  let subdir := joinpath output_root (parent rel) in
  let target := output_path output_root rel (i + 1) in
  exists out w1 fires,
    fs w1 = fs w /\ Forall is_fire fires /\
    save_step y sr output_root rel i w =
      match mkdir_from [] subdir (fs w) with
      | Raise e => Res (Raise e) w1 (EvAugment y sr :: fires)
      | Ok f1 =>
          match node_at f1 target with
          | Some Dir =>
              Res (Raise LibsndfileError) (set_fs f1 w1)
                  (EvAugment y sr :: fires ++ [EvMkdir subdir])
          | _ =>
              Res (Ok tt) (set_fs (<[target := File (Audio sr (map pcm_16 out))]> f1) w1)
                  (EvAugment y sr :: fires ++
                     [EvMkdir subdir; EvWrite target out sr;
                      EvPrint ("Saved: " +:+ str target)])
          end
      end.
Proof.
  intros subdir target.
  destruct (call_augmenter_ok y sr w) as (out & w1 & fires & E & F & Hf).
  exists out, w1, fires. split; [exact F | split; [exact Hf | ]].
  unfold save_step. rewrite (bind_Ok _ _ _ _ _ _ E).
  fold subdir. rewrite aug_name_output_name.
  change (joinpath subdir [output_name (stem rel) (i + 1)]) with target.
  destruct (mkdir_from [] subdir (fs w)) as [f1|e] eqn:Emk.
  - assert (mkdir subdir w1 = Res (Ok tt) (set_fs f1 w1) [EvMkdir subdir]) as Em
      by (unfold mkdir; now rewrite F, Emk).
    rewrite (bind_Ok _ _ _ _ _ _ Em). cbn [outcome_of world_of events_of].
    assert (node_at f1 (removelast target) = Some Dir) as Hdir.
    { replace (removelast target) with subdir
        by (unfold target, output_path, joinpath; now rewrite removelast_last).
      exact (mkdir_node_at _ _ _ Emk). }
    destruct (node_at f1 target) as [[|c]|] eqn:Et.
    + assert (sf_write target out sr (set_fs f1 w1)
              = Res (Raise LibsndfileError) (set_fs f1 w1) []) as Ew
        by (unfold sf_write; cbn [fs set_fs]; now rewrite Hdir, Et).
      rewrite (bind_Raise _ _ _ _ _ _ Ew). cbn. rewrite ?app_nil_r. reflexivity.
    + assert (sf_write target out sr (set_fs f1 w1)
              = Res (Ok tt) (set_fs (<[target := File (Audio sr (map pcm_16 out))]> f1) w1)
                    [EvWrite target out sr]) as Ew
        by (unfold sf_write; cbn [fs set_fs]; now rewrite Hdir, Et).
      rewrite (bind_Ok _ _ _ _ _ _ Ew). reflexivity.
    + assert (sf_write target out sr (set_fs f1 w1)
              = Res (Ok tt) (set_fs (<[target := File (Audio sr (map pcm_16 out))]> f1) w1)
                    [EvWrite target out sr]) as Ew
        by (unfold sf_write; cbn [fs set_fs]; now rewrite Hdir, Et).
      rewrite (bind_Ok _ _ _ _ _ _ Ew). reflexivity.
  - assert (mkdir subdir w1 = Res (Raise e) w1 []) as Em
      by (unfold mkdir; now rewrite F, Emk).
    rewrite (bind_Raise _ _ _ _ _ _ Em). cbn. rewrite ?app_nil_r. reflexivity.
Qed.

Lemma writes_of_app e1 e2 : writes_of (e1 ++ e2) = writes_of e1 ++ writes_of e2.
Proof. apply omap_app. Qed.

Lemma chain_inputs_app e1 e2 : chain_inputs (e1 ++ e2) = chain_inputs e1 ++ chain_inputs e2.
Proof. apply omap_app. Qed.

(** An iteration that returns has called the chain once, on [y], and
    written one file, the one numbered [i + 1]. *)
Lemma save_step_collect y sr output_root rel i w :
  outcome_of (save_step y sr output_root rel i w) = Ok tt ->
  writes_of (events_of (save_step y sr output_root rel i w))
    = [output_path output_root rel (i + 1)] /\
  chain_inputs (events_of (save_step y sr output_root rel i w)) = [y].
Proof.
  destruct (save_step_run y sr output_root rel i w) as (out & w1 & fires & _ & Hf & ->).
  destruct (fires_write_nothing _ Hf) as [Hw Hc].
  destruct (mkdir_from _ _ _) as [f1|e]; [ | discriminate].
  destruct (node_at f1 _) as [[|c]|]; try discriminate; intros _; cbn [events_of];
    change (EvAugment y sr :: fires ++ ?l) with ([EvAugment y sr] ++ fires ++ l);
    rewrite !writes_of_app, !chain_inputs_app, Hw, Hc; split; reflexivity.
Qed.

Lemma audio_at_mkdir sr done todo f f' p :
  mkdir_from done todo f = Ok f' -> audio_at sr f p -> audio_at sr f' p.
Proof.
  intros H [d Hd]. exists d.
  destruct (mkdir_from_lookup _ _ _ _ p H) as [->|[Hn _]]; congruence.
Qed.

Lemma audio_at_insert sr f p q d :
  audio_at sr f p -> audio_at sr (<[q := File (Audio sr d)]> f) p.
Proof.
  intros [d' Hd']. destruct (decide (p = q)) as [->|Hne].
  - exists d. now rewrite lookup_insert_eq.
  - exists d'. now rewrite lookup_insert_ne.
Qed.

Lemma written_hold_audio_app sr pre evs w :
  written_hold_audio sr (pre ++ evs) w <->
  written_hold_audio sr pre w /\ written_hold_audio sr evs w.
Proof. apply Forall_app. Qed.

Lemma written_hold_audio_fs sr pre w w' :
  (forall p, audio_at sr (fs w) p -> audio_at sr (fs w') p) ->
  written_hold_audio sr pre w -> written_hold_audio sr pre w'.
Proof.
  intros H HJ. eapply Forall_impl; [exact HJ | ]. intros [ | | | |p d r| ]; auto.
Qed.

Lemma written_hold_audio_fires sr fires w :
  Forall is_fire fires -> written_hold_audio sr fires w.
Proof. intros H. eapply Forall_impl; [exact H | ]. intros []; simpl; tauto. Qed.

(** An iteration keeps every file written so far at rate [sr], and
    the file it writes is one. *)
Lemma save_step_preserves y sr output_root rel i :
  preserves (written_hold_audio sr) (save_step y sr output_root rel i).
Proof.
  intros pre w HJ.
  destruct (save_step_run y sr output_root rel i w) as (out & w1 & fires & F & Hf & ->).
  pose proof (written_hold_audio_fires sr fires) as Hfires.
  destruct (mkdir_from _ _ _) as [f1|e] eqn:Emk.
  - assert (forall p, audio_at sr (fs w) p -> audio_at sr f1 p) as Hkeep
      by (intros p; eapply audio_at_mkdir; eassumption).
    destruct (node_at f1 _) as [[|c]|]; cbn [events_of world_of];
      change (EvAugment y sr :: fires ++ ?l) with ([EvAugment y sr] ++ fires ++ l);
      rewrite !written_hold_audio_app;
      repeat split;
      try (eapply written_hold_audio_fs; [ | exact HJ]; cbn [fs set_fs];
           intros p Hp; try apply audio_at_insert; now apply Hkeep);
      try (now apply Hfires);
      try (repeat constructor; cbn [fs set_fs]; eexists; apply lookup_insert_eq).
  - cbn [events_of world_of].
    change (EvAugment y sr :: fires) with ([EvAugment y sr] ++ fires).
    rewrite !written_hold_audio_app. repeat split.
    + eapply written_hold_audio_fs; [ | exact HJ]. now rewrite F.
    + repeat constructor.
    + now apply Hfires.
Qed.

End PerFile.

(** ** Files written hold audio at the rate they were written at *)

Section Preservation.
Context `{Libs : Libraries}.
Local Open Scope py_scope.

Lemma preserves_ret {A} J (a : A) : preserves J (ret a).
Proof. intros pre w H. simpl. now rewrite app_nil_r. Qed.

Lemma preserves_raise {A} J e : preserves J (@raise _ A e).
Proof. intros pre w H. simpl. now rewrite app_nil_r. Qed.

Lemma preserves_bind {A B} J (m : M A) (k : A -> M B) :
  preserves J m -> (forall a, preserves J (k a)) -> preserves J (bind m k).
Proof.
  intros Hm Hk pre w H. unfold bind. specialize (Hm pre w H).
  destruct (m w) as [[a|e] w1 ev1]; simpl in *; [ | assumption].
  rewrite app_assoc. now apply Hk.
Qed.

Lemma preserves_for_each {A} J (l : list A) (body : A -> M unit) :
  (forall x, preserves J (body x)) -> preserves J (for_each l body).
Proof.
  intros H. induction l as [|x l IH]; simpl.
  - apply preserves_ret.
  - apply preserves_bind; [apply H | intros _; exact IH].
Qed.


Lemma preserves_librosa_load sr sr' p : preserves (written_hold_audio sr) (librosa_load p sr').
Proof.
  intros pre w H. unfold librosa_load.
  destruct (node_at (fs w) p) as [[|[sr0 y0|]]|]; simpl; rewrite ?app_nil_r; try exact H.
  apply written_hold_audio_app. split; [exact H | repeat constructor].
Qed.

Lemma preserves_augment_and_save f sr input_root output_root :
  preserves (written_hold_audio sr) (augment_and_save f sr input_root output_root).
Proof.
  rewrite augment_and_save_unfold.
  apply preserves_bind.
  - unfold relative_to_or_raise.
    destruct (relative_to f input_root); [apply preserves_ret | apply preserves_raise].
  - intros rel. apply preserves_bind; [apply preserves_librosa_load | intros y_sr].
    apply preserves_for_each. intros i. apply save_step_preserves.
Qed.


Lemma written_hold_audio_writes sr evs w :
  written_hold_audio sr evs w -> Forall (audio_at sr (fs w)) (writes_of evs).
Proof.
  induction 1 as [|e evs He _ IH]; [constructor | ].
  destruct e; simpl; auto.
Qed.

End Preservation.

(** ** Output names *)

Lemma output_name_inj `{Libs : Libraries} basename : Inj (=) (=) (output_name basename).
Proof.
  intros i j H. unfold output_name in H.
  apply String.app_inj in H. apply (String.app_inj "_aug") in H.
  apply append_inj_r in H. now apply pretty_nat_inj in H.
Qed.

Lemma output_path_inj `{Libs : Libraries} output_root rel : Inj (=) (=) (output_path output_root rel).
Proof.
  intros i j H. unfold output_path, joinpath in H.
  apply app_inv_head in H. injection H as H. now apply output_name_inj in H.
Qed.

Lemma relative_to_Some p root r : relative_to p root = Some r -> p = root ++ r.
Proof.
  revert p; induction root as [|c root IH]; intros [|d p]; simpl; try congruence.
  destruct (decide (c = d)) as [->|]; [ | discriminate].
  intros H. f_equal. now apply IH.
Qed.

Lemma relative_to_app root r : relative_to (root ++ r) root = Some r.
Proof.
  induction root as [|c root IH]; simpl; [now destruct r | ].
  destruct (decide (c = c)); [exact IH | contradiction].
Qed.

Lemma concat_singletons_shift {X} (g : nat -> X) s n :
  concat (map (fun i => [g (i + 1)]) (seq s n)) = map g (seq (S s) n).
Proof.
  revert s; induction n as [|n IH]; intros s; simpl; [reflexivity | ].
  rewrite Nat.add_1_r. f_equal. apply IH.
Qed.

Lemma concat_singletons_const {X} (y : X) s n :
  concat (map (fun _ : nat => [y]) (seq s n)) = repeat y n.
Proof.
  revert s; induction n as [|n IH]; intros s; simpl; [reflexivity | ].
  f_equal. apply IH.
Qed.

Section PerFileClaims.
Context `{Libs : Libraries}.
Local Open Scope py_scope.

(** [augment_and_save] step by step: the path computation, the load, the loop. *)
Lemma augment_and_save_run f sr input_root output_root w :
  augment_and_save f sr input_root output_root w =
  match relative_to f input_root with
  | None => Res (Raise ValueError) w []
  | Some rel =>
      match node_at (fs w) f with
      | None => Res (Raise FileNotFoundError) w []
      | Some Dir => Res (Raise IsADirectoryError) w []
      | Some (File Undecodable) => Res (Raise NoBackendError) w []
      | Some (File (Audio sr0 y0)) =>
          let r := save_loop (resample sr0 sr y0) sr output_root rel w in
          Res (outcome_of r) (world_of r) (EvLoad f sr :: events_of r)
      end
  end.
Proof.
  rewrite augment_and_save_unfold. unfold relative_to_or_raise.
  destruct (relative_to f input_root) as [rel|]; [ | reflexivity].
  rewrite bind_ret. unfold bind, librosa_load.
  destruct (node_at (fs w) f) as [[|[sr0 y0|]]|]; reflexivity.
Qed.

Lemma discovered_below w0 f : f ∈ discovered w0 -> below (Path INPUT_DIR) f = true.
Proof.
  unfold discovered, rglob_list.
  destruct (node_at _ _) as [[|c]|]; try (intros H; now apply elem_of_nil in H).
  intros H. apply list_elem_of_filter in H as [H _].
  apply andb_prop_elim in H as [H _]. now apply Is_true_true.
Qed.

Lemma save_loop_collect y sr output_root rel w :
  outcome_of (save_loop y sr output_root rel w) = Ok tt ->
  writes_of (events_of (save_loop y sr output_root rel w))
    = map (output_path output_root rel) (seq 1 NUM_AUGMENTATIONS) /\
  chain_inputs (events_of (save_loop y sr output_root rel w)) = repeat y NUM_AUGMENTATIONS.
Proof.
  intros Hok. unfold save_loop in *. split.
  - rewrite (for_each_collect writes_of (fun i => [output_path output_root rel (i + 1)]));
      [ | reflexivity | apply writes_of_app | | exact Hok].
    + apply concat_singletons_shift.
    + intros i w' H. now apply save_step_collect.
  - rewrite (for_each_collect chain_inputs (fun _ => [y]));
      [ | reflexivity | apply chain_inputs_app | | exact Hok].
    + apply concat_singletons_const.
    + intros i w' H. now apply save_step_collect.
Qed.

(** C1: for an input file the driver discovers, a call of
    [augment_and_save] that returns has written exactly NUM_AUGMENTATIONS
    files, [{basename}_aug{i}.wav] for i = 1, ..., NUM_AUGMENTATIONS in
    this order, in the mirrored directory; the names are pairwise
    distinct and each file is there, holding audio, when the call
    returns. *)
Theorem augment_and_save_writes_all_copies :
  forall (w0 w : World) (f : path),
    f ∈ discovered w0 ->
    outcome_of (augment_and_save f SAMPLE_RATE (Path INPUT_DIR) (Path OUTPUT_DIR) w) = Ok tt ->
    exists rel,
      f = Path INPUT_DIR ++ rel /\ rel <> [] /\
      let r := augment_and_save f SAMPLE_RATE (Path INPUT_DIR) (Path OUTPUT_DIR) w in
      writes_of (events_of r)
        = map (fun i => Path OUTPUT_DIR ++ parent rel ++ [stem rel +:+ "_aug" +:+ pretty i +:+ ".wav"])
              (seq 1 NUM_AUGMENTATIONS) /\
      length (writes_of (events_of r)) = NUM_AUGMENTATIONS /\
      NoDup (writes_of (events_of r)) /\
      Forall (audio_at SAMPLE_RATE (fs (world_of r))) (writes_of (events_of r)).
Proof.
  intros w0 w f Hdisc Hok.
  pose proof (preserves_augment_and_save f SAMPLE_RATE (Path INPUT_DIR) (Path OUTPUT_DIR)
                [] w (Forall_nil_2 _)) as Haudio.
  rewrite app_nil_l in Haudio. apply written_hold_audio_writes in Haudio.
  revert Hok Haudio. rewrite augment_and_save_run.
  apply discovered_below in Hdisc. unfold below in Hdisc.
  destruct (relative_to f (Path INPUT_DIR)) as [[|c rel]|] eqn:Erel; try discriminate.
  destruct (node_at (fs w) f) as [[|[sr0 y0|]]|]; try discriminate.
  cbn [outcome_of events_of world_of]. intros Hok Haudio.
  destruct (save_loop_collect _ _ _ _ _ Hok) as [Hw _].
  exists (c :: rel). split; [now apply relative_to_Some | split; [discriminate | ]].
  change (writes_of (EvLoad f SAMPLE_RATE :: ?l)) with (writes_of l) in *.
  rewrite Hw in *.
  split; [ | split; [ | split]].
  - apply map_ext. intros i. unfold output_path, joinpath, output_name.
    now rewrite <- app_assoc.
  - now rewrite length_map, length_seq.
  - pose proof (output_path_inj (Path OUTPUT_DIR) (c :: rel)) as Hinj.
    apply (NoDup_fmap_2 _). apply NoDup_seq.
  - exact Haudio.
Qed.

(** C4: every call of the chain made by [augment_and_save] is on the
    waveform the load returned, not on an earlier result; a call that
    returns has made exactly NUM_AUGMENTATIONS calls of the chain, each
    on that waveform. *)
Theorem every_repetition_starts_from_loaded_waveform :
  forall (f : path) (sr : N) (input_root output_root : path) (w : World) (y : wave),
    outcome_of (librosa_load f sr w) = Ok (y, sr) ->
    let r := augment_and_save f sr input_root output_root w in
    Forall (fun e => match e with EvAugment samples _ => samples = y | _ => True end)
           (events_of r) /\
    (outcome_of r = Ok tt -> chain_inputs (events_of r) = repeat y NUM_AUGMENTATIONS).
Proof.
  intros f sr input_root output_root w y Hload. cbv zeta.
  rewrite augment_and_save_run.
  destruct (relative_to f input_root) as [rel|]; [ | split; [constructor | discriminate]].
  revert Hload. unfold librosa_load.
  destruct (node_at (fs w) f) as [[|[sr0 y0|]]|]; try discriminate.
  cbn [outcome_of events_of]. intros [= <-]. split.
  - constructor; [exact I | ].
    apply save_loop_emits; try (intros; exact I).
    + apply call_augmenter_emits; [reflexivity | intros; exact I].
  - intros Hok. change (chain_inputs (EvLoad f sr :: ?l)) with (chain_inputs l).
    now destruct (save_loop_collect _ _ _ _ _ Hok) as [_ ->].
Qed.

Lemma node_at_output_path f output_root rel i :
  node_at f (output_path output_root rel i) = f !! output_path output_root rel i.
Proof.
  unfold output_path, joinpath.
  destruct (output_root ++ parent rel) as [|c l]; reflexivity.
Qed.





End PerFileClaims.

(** ** The whole run *)

Section RunClaims.
Context `{Libs : Libraries}.
Local Open Scope py_scope.

Lemma removelast_snoc {X} (l : list X) x : removelast (l ++ [x]) = l.
Proof. apply removelast_last. Qed.

(** C2: every file written during a run lies under the output root
    joined with the subdirectory its input file has below the input root,
    under a name carrying an augmentation index between 1 and
    NUM_AUGMENTATIONS; for one input file these names are pairwise
    distinct.  The actions of a run that raises are those completed before
    the raise, so this holds after every write. *)
Theorem outputs_mirror_class_subdirectory :
  forall (w : World),
    Forall (fun e =>
              match e with
              | EvWrite p _ _ =>
                  exists f rel i,
                    f ∈ discovered w /\ f = Path INPUT_DIR ++ rel /\
                    1 <= i <= NUM_AUGMENTATIONS /\
                    p = Path OUTPUT_DIR ++ parent rel ++ [output_name (stem rel) i] /\
                    relative_to (removelast p) (Path OUTPUT_DIR) = Some (parent rel) /\
                    parent rel = removelast rel
              | _ => True
              end)
           (events_of (notebook w)) /\
    (forall basename, NoDup (map (output_name basename) (seq 1 NUM_AUGMENTATIONS))).
Proof.
  intros w. split.
  - apply notebook_events; try (intros; exact I).
    + intros y. apply call_augmenter_emits; [exact I | intros; exact I].
    + intros f rel i d Hf Hrel Hi. exists f, rel, i.
      split; [exact Hf | split; [now apply relative_to_Some | split; [exact Hi | ]]].
      unfold output_path, joinpath. rewrite <- app_assoc. split; [reflexivity | ].
      split; [ | reflexivity].
      rewrite app_assoc, removelast_snoc. apply relative_to_app.
  - intros basename. pose proof (output_name_inj basename) as Hinj.
    apply (NoDup_fmap_2 _). apply NoDup_seq.
Qed.

(** *** Failures *)

Lemma prints_other_than_done f :
  emits (fun e => e <> EvPrint done_message)
        (augment_and_save f SAMPLE_RATE (Path INPUT_DIR) (Path OUTPUT_DIR)).
Proof.
  apply augment_and_save_emits.
  - discriminate.
  - intros y. apply call_augmenter_emits; discriminate.
  - discriminate.
  - discriminate.
  - discriminate.
Qed.

(** The only file [augment_and_save] loads is the one it is called on. *)
Lemma loads_own_file (files : list path) f :
  f ∈ files ->
  emits (fun e => match e with EvLoad p _ => p ∈ files | _ => True end)
        (augment_and_save f SAMPLE_RATE (Path INPUT_DIR) (Path OUTPUT_DIR)).
Proof.
  intros Hf. apply augment_and_save_emits; try (intros; exact I); [exact Hf | ].
  intros y. apply call_augmenter_emits; [exact I | intros; exact I].
Qed.

Lemma not_in_app_events (e : event) evs1 evs2 :
  Forall (fun e' => e' <> e) evs1 -> Forall (fun e' => e' <> e) evs2 -> e ∉ evs1 ++ evs2.
Proof.
  intros H1 H2 Hin. apply elem_of_app in Hin as [Hin|Hin];
    [rewrite Forall_forall in H1; now apply (H1 e) |
     rewrite Forall_forall in H2; now apply (H2 e)].
Qed.

Lemma for_each_raise {A} (before after : list A) x (body : A -> M unit) w w1 ev1 e w2 ev2 :
  for_each before body w = Res (Ok tt) w1 ev1 ->
  body x w1 = Res (Raise e) w2 ev2 ->
  for_each (before ++ x :: after) body w = Res (Raise e) w2 (ev1 ++ ev2).
Proof.
  intros E1 E2. rewrite for_each_app, (bind_Ok _ _ _ _ _ _ E1).
  cbn [for_each]. now rewrite (bind_Raise _ _ _ _ _ _ E2).
Qed.

Lemma driver_body_raise before after f w w1 ev1 e w2 ev2 :
  for_each before (fun file_path =>
    augment_and_save file_path SAMPLE_RATE (Path INPUT_DIR) (Path OUTPUT_DIR)) w
    = Res (Ok tt) w1 ev1 ->
  augment_and_save f SAMPLE_RATE (Path INPUT_DIR) (Path OUTPUT_DIR) w1 = Res (Raise e) w2 ev2 ->
  driver_body (before ++ f :: after) w
    = Res (Raise e) w2
          (EvPrint (found_message (length (before ++ f :: after))) :: ev1 ++ ev2).
Proof.
  intros E1 E2. unfold driver_body.
  rewrite (bind_Ok _ _ w tt w [EvPrint (found_message (length (before ++ f :: after)))] eq_refl).
  rewrite (bind_Raise _ _ _ _ _ _ (for_each_raise before after f _ _ _ _ _ _ _ E1 E2)).
  reflexivity.
Qed.

(** C7, as the code has it: when [augment_and_save] raises on a
    discovered file after the files before it went through, the driver
    raises the same exception; the world and the actions are those
    reached at the raise, so no file listed after it is loaded and the
    completion message is not printed. *)
Theorem failure_on_a_file_aborts_the_run :
  forall (w : World) (before after : list path) (f : path) (e : exn),
    let process := fun file_path =>
      augment_and_save file_path SAMPLE_RATE (Path INPUT_DIR) (Path OUTPUT_DIR) in
    discovered w = before ++ f :: after ->
    outcome_of (for_each before process w) = Ok tt ->
    outcome_of (process f (world_of (for_each before process w))) = Raise e ->
    outcome_of (driver w) = Raise e /\
    world_of (driver w) = world_of (process f (world_of (for_each before process w))) /\
    events_of (driver w)
      = EvPrint (found_message (length (discovered w)))
          :: events_of (for_each before process w)
          ++ events_of (process f (world_of (for_each before process w))) /\
    Forall (fun e' => match e' with EvLoad p _ => p ∈ before ++ [f] | _ => True end)
           (events_of (driver w)) /\
    EvPrint done_message ∉ events_of (driver w).
Proof.
  intros w before after f e process Hfiles Hbefore Hraise.
  assert (Forall (fun e' => match e' with EvLoad p _ => p ∈ before ++ [f] | _ => True end)
                 (events_of (for_each before process w))) as Hloads1.
  { apply emits_for_each. intros x Hx. apply loads_own_file.
    apply elem_of_app. now left. }
  assert (Forall (fun e' => match e' with EvLoad p _ => p ∈ before ++ [f] | _ => True end)
                 (events_of (process f (world_of (for_each before process w))))) as Hloads2.
  { apply loads_own_file. apply elem_of_app. right. apply list_elem_of_singleton.
    reflexivity. }
  assert (Forall (fun e' => e' <> EvPrint done_message) (events_of (for_each before process w)))
    as Hquiet1 by (apply emits_for_each; intros; apply prints_other_than_done).
  assert (Forall (fun e' => e' <> EvPrint done_message)
                 (events_of (process f (world_of (for_each before process w)))))
    as Hquiet2 by apply prints_other_than_done.
  destruct (for_each before process w) as [[[]|e1] w1 ev1] eqn:E1; [ | discriminate].
  cbn [world_of outcome_of events_of] in *.
  destruct (process f w1) as [[[]|e2] w2 ev2] eqn:E2; [discriminate | ].
  cbn [world_of outcome_of events_of] in *. injection Hraise as ->.
  rewrite driver_unfold, Hfiles.
  rewrite (driver_body_raise _ _ _ _ _ _ _ _ _ E1 E2). cbn [world_of outcome_of events_of].
  repeat split.
  - constructor; [exact I | ]. now apply Forall_app.
  - change (EvPrint ?m :: ev1 ++ ev2) with ([EvPrint m] ++ ev1 ++ ev2).
    apply not_in_app_events; [repeat constructor; discriminate | ].
    now apply Forall_app.
Qed.

(** X1: a missing input directory is not a failure: where the input root
    is not a directory, the driver lists nothing, prints the count zero and
    the completion message, and returns with the world as it was. *)
Lemma missing_input_directory_finds_nothing (w : World) :
  node_at (fs w) (Path INPUT_DIR) <> Some Dir ->
  driver w = Res (Ok tt) w [EvPrint (found_message 0); EvPrint done_message].
Proof.
  intros Hmissing. rewrite driver_unfold.
  assert (discovered w = []) as ->; [ | reflexivity].
  unfold discovered, rglob_list.
  destruct (node_at (fs w) (Path INPUT_DIR)) as [[|c]|]; congruence.
Qed.

Lemma filter_none {X} (P : X -> Prop) `{forall x, Decision (P x)} (l : list X) :
  Forall (fun x => ~ P x) l -> filter P l = [].
Proof.
  induction 1 as [|x l Hx _ IH]; [reflexivity | ].
  now rewrite filter_cons_False.
Qed.

(** C9: when no entry below the input root has a name ending in [.wav],
    the run reports zero files, leaves the file system as it was, so
    writes no file and creates no directory, and returns. *)
Theorem no_matching_files_no_output :
  forall (w : World),
    map_Forall (fun p _ => negb (below (Path INPUT_DIR) p && match_star ".wav" (name p)))
               (fs w) ->
    outcome_of (notebook w) = Ok tt /\
    fs (world_of (notebook w)) = fs w /\
    events_of (notebook w)
      = [EvPrint "Found 0 audio files in /workspace/data/raw_audio"; EvPrint done_message].
Proof.
  intros w Hnone. rewrite notebook_unfold, driver_unfold.
  assert (discovered (set_rnd {| stream := mersenne RANDOM_SEED; pos := 0 |} w) = []) as ->;
    [ | repeat split; reflexivity].
  unfold discovered, rglob_list. cbn [fs set_rnd].
  destruct (node_at (fs w) (Path INPUT_DIR)) as [[|c]|]; try reflexivity.
  apply filter_none. apply Forall_forall. intros p Hp Hmatch.
  apply list_elem_of_fmap in Hp as [[p' n] [-> Hp]].
  apply elem_of_map_to_list in Hp. specialize (Hnone _ _ Hp). simpl in *.
  destruct (below _ _ && match_star _ _); [exact Hnone | exact Hmatch].
Qed.

(** X2: a run depends on the world it starts in only through the file
    system and the ambient library state: the setup cell reseeds [random],
    so the state [random] was in before does not matter. *)
Theorem run_is_function_of_files_and_ambient_state :
  forall (w1 w2 : World),
    fs w1 = fs w2 -> amb w1 = amb w2 -> notebook w1 = notebook w2.
Proof.
  intros [f1 r1 a1] [f2 r2 a2]. simpl. intros -> ->.
  now rewrite !notebook_unfold.
Qed.

End RunClaims.

(** ** The model at work *)

Module Runs.
Import Toy.
#[local] Existing Instance Toy.libs.

(** The scenario of two files in two class directories: six files, three
    per input, in the mirrored directories. *)
Example two_files_six_outputs :
  outcome_of (notebook (world two_files)) = Ok tt /\
  writes_of (events_of (notebook (world two_files)))
  = [ out ++ ["red"; "yes_aug1.wav"]; out ++ ["red"; "yes_aug2.wav"];
      out ++ ["red"; "yes_aug3.wav"]; out ++ ["blue"; "no_aug1.wav"];
      out ++ ["blue"; "no_aug2.wav"]; out ++ ["blue"; "no_aug3.wav"] ].
Proof. split; vm_compute; reflexivity. Qed.

(** [rglob] lists a directory whose name matches; loading it raises. *)
Example directory_named_wav_is_listed :
  discovered (world directory_named_wav) = [raw ++ ["clips.wav"]] /\
  outcome_of (notebook (world directory_named_wav)) = Raise IsADirectoryError.
Proof. split; vm_compute; reflexivity. Qed.

(** A regular file in the place of the output root: [mkdir] raises on the
    first file and nothing is written. *)
Example blocked_output_root_aborts :
  outcome_of (notebook (world output_root_is_a_file)) = Raise NotADirectoryError /\
  writes_of (events_of (notebook (world output_root_is_a_file))) = [].
Proof. split; vm_compute; reflexivity. Qed.

(** A directory in the place of the second copy: the write raises after the
    first copy was written, and the run stops there. *)
Example directory_at_target_aborts :
  outcome_of (notebook (world target_is_a_directory)) = Raise LibsndfileError /\
  writes_of (events_of (notebook (world target_is_a_directory)))
  = [out ++ ["red"; "yes_aug1.wav"]].
Proof. split; vm_compute; reflexivity. Qed.

(** A rerun on the tree of the first run returns and adds no entry. *)
Example rerun_adds_nothing :
  outcome_of (notebook (world after_first_run)) = Ok tt /\
  map fst (map_to_list (fs (world_of (notebook (world after_first_run)))))
  = map fst (map_to_list after_first_run).
Proof. split; vm_compute; reflexivity. Qed.


Lemma augment_and_save_writes_all_copies_witness :
  exists rel,
    yes_wav = Path INPUT_DIR ++ rel /\ rel <> [] /\
    let r := augment_and_save yes_wav SAMPLE_RATE (Path INPUT_DIR) (Path OUTPUT_DIR)
                              (world two_files) in
    writes_of (events_of r)
      = map (fun i => Path OUTPUT_DIR ++ parent rel ++ [stem rel +:+ "_aug" +:+ pretty i +:+ ".wav"])
            (seq 1 NUM_AUGMENTATIONS) /\
    length (writes_of (events_of r)) = NUM_AUGMENTATIONS /\
    NoDup (writes_of (events_of r)) /\
    Forall (audio_at SAMPLE_RATE (fs (world_of r))) (writes_of (events_of r)).
Proof.
  apply (augment_and_save_writes_all_copies (world two_files) (world two_files) yes_wav).
  - apply (bool_decide_unpack _). vm_compute. exact I.
  - vm_compute. reflexivity.
Defined.

Lemma every_repetition_starts_from_loaded_waveform_witness :
  let r := augment_and_save yes_wav SAMPLE_RATE (Path INPUT_DIR) (Path OUTPUT_DIR)
                            (world two_files) in
  Forall (fun e => match e with EvAugment samples _ => samples = [10; 20]%Z | _ => True end)
         (events_of r) /\
  (outcome_of r = Ok tt -> chain_inputs (events_of r) = repeat [10; 20]%Z NUM_AUGMENTATIONS).
Proof.
  apply (every_repetition_starts_from_loaded_waveform
           yes_wav SAMPLE_RATE (Path INPUT_DIR) (Path OUTPUT_DIR) (world two_files)).
  vm_compute. reflexivity.
Defined.

Lemma failure_on_a_file_aborts_the_run_witness :
  let process := fun file_path =>
    augment_and_save file_path SAMPLE_RATE (Path INPUT_DIR) (Path OUTPUT_DIR) in
  let w := world corrupt_second in
  outcome_of (driver w) = Raise NoBackendError /\
  world_of (driver w) = world_of (process no_wav (world_of (for_each [yes_wav] process w))) /\
  events_of (driver w)
    = EvPrint (found_message (length (discovered w)))
        :: events_of (for_each [yes_wav] process w)
        ++ events_of (process no_wav (world_of (for_each [yes_wav] process w))) /\
  Forall (fun e' => match e' with EvLoad p _ => p ∈ [yes_wav] ++ [no_wav] | _ => True end)
         (events_of (driver w)) /\
  EvPrint done_message ∉ events_of (driver w).
Proof.
  apply (failure_on_a_file_aborts_the_run (world corrupt_second) [yes_wav] [go_wav] no_wav
                                          NoBackendError).
  - vm_compute. reflexivity.
  - vm_compute. reflexivity.
  - vm_compute. reflexivity.
Defined.

(** C7 as stated fails: with no input directory nothing raises; the run
    reports zero files and completes. *)
Lemma missing_input_directory_completes_normally :
  node_at (fs (world no_input_dir)) (Path INPUT_DIR) = None /\
  outcome_of (notebook (world no_input_dir)) = Ok tt /\
  events_of (notebook (world no_input_dir))
  = [EvPrint "Found 0 audio files in /workspace/data/raw_audio"; EvPrint done_message].
Proof. repeat split; vm_compute; reflexivity. Qed.

Lemma no_matching_files_no_output_witness :
  outcome_of (notebook (world no_audio)) = Ok tt /\
  fs (world_of (notebook (world no_audio))) = fs (world no_audio) /\
  events_of (notebook (world no_audio))
  = [EvPrint "Found 0 audio files in /workspace/data/raw_audio"; EvPrint done_message].
Proof.
  apply (no_matching_files_no_output (world no_audio)).
  apply (bool_decide_unpack _). vm_compute. exact I.
Defined.


Lemma missing_input_directory_finds_nothing_witness :
  driver (world no_input_dir)
  = Res (Ok tt) (world no_input_dir) [EvPrint (found_message 0); EvPrint done_message].
Proof.
  apply (missing_input_directory_finds_nothing (world no_input_dir)).
  vm_compute. discriminate.
Defined.

Lemma run_is_function_of_files_and_ambient_state_witness :
  notebook (world two_files)
  = notebook {| fs := two_files; rnd := tape_for true false true false; amb := tt |}.
Proof.
  apply (run_is_function_of_files_and_ambient_state
           (world two_files)
           {| fs := two_files; rnd := tape_for true false true false; amb := tt |});
    reflexivity.
Defined.

End Runs.

(** * Further properties *)

(** ** Properties of all the actions of a statement *)

Section Always.
Context `{Libs : Libraries}.
Local Open Scope py_scope.

Variable R : list event -> Prop.
Hypothesis R_nil : R [].
Hypothesis R_app : forall evs1 evs2, R evs1 -> R evs2 -> R (evs1 ++ evs2).

Lemma always_ret {A} (a : A) : always R (ret a).
Proof. intros w. exact R_nil. Qed.

Lemma always_raise {A} e : always R (@raise _ A e).
Proof. intros w. exact R_nil. Qed.

Lemma always_bind {A B} (m : M A) (k : A -> M B) :
  always R m -> (forall a, always R (k a)) -> always R (bind m k).
Proof.
  intros Hm Hk w. unfold bind. specialize (Hm w).
  destruct (m w) as [[a|e] w1 ev1]; simpl in *; [ | assumption].
  apply R_app; [assumption | apply Hk].
Qed.

Lemma always_for_each {A} (l : list A) (body : A -> M unit) :
  (forall x, always R (body x)) -> always R (for_each l body).
Proof.
  intros H. induction l as [|x l IH]; simpl.
  - apply always_ret.
  - apply always_bind; [apply H | intros _; exact IH].
Qed.

End Always.

Section MoreEvents.
Context `{Libs : Libraries}.
Local Open Scope py_scope.

Lemma console_app evs1 evs2 : console (evs1 ++ evs2) = console evs1 ++ console evs2.
Proof. apply omap_app. Qed.

Lemma loads_of_app evs1 evs2 : loads_of (evs1 ++ evs2) = loads_of evs1 ++ loads_of evs2.
Proof. apply omap_app. Qed.

Lemma console_matches_writes_app evs1 evs2 :
  console_matches_writes evs1 -> console_matches_writes evs2 ->
  console_matches_writes (evs1 ++ evs2).
Proof.
  unfold console_matches_writes. intros H1 H2.
  now rewrite console_app, writes_of_app, map_app, H1, H2.
Qed.

Lemma fires_are_silent evs : Forall is_fire evs -> console evs = [] /\ loads_of evs = [].
Proof.
  induction 1 as [|e evs He _ [IH1 IH2]]; [split; reflexivity | ].
  destruct e; try contradiction. simpl. auto.
Qed.

(** An iteration prints its line exactly when it has written its file. *)
Lemma save_step_console y sr output_root rel i :
  always console_matches_writes (save_step y sr output_root rel i).
Proof.
  intros w.
  destruct (save_step_run y sr output_root rel i w) as (out & w1 & fires & _ & Hf & ->).
  destruct (fires_write_nothing _ Hf) as [Hw _].
  destruct (fires_are_silent _ Hf) as [Hc _].
  unfold console_matches_writes.
  destruct (mkdir_from _ _ _) as [f1|e]; [destruct (node_at f1 _) as [[|c]|] | ];
    cbn [events_of];
    change (EvAugment y sr :: ?l) with ([EvAugment y sr] ++ l);
    rewrite ?console_app, ?writes_of_app, Hw, Hc; reflexivity.
Qed.

Lemma augment_and_save_console f sr input_root output_root :
  always console_matches_writes (augment_and_save f sr input_root output_root).
Proof.
  rewrite augment_and_save_unfold.
  apply (always_bind console_matches_writes console_matches_writes_app).
  - unfold relative_to_or_raise. destruct (relative_to f input_root); intros w; reflexivity.
  - intros rel.
    apply (always_bind console_matches_writes console_matches_writes_app).
    + intros w. unfold librosa_load.
      destruct (node_at (fs w) f) as [[|[sr0 y0|]]|]; reflexivity.
    + intros y_sr. apply (always_for_each console_matches_writes eq_refl console_matches_writes_app).
      intros i. apply save_step_console.
Qed.

(** The driver's result in terms of its loop. *)
Lemma driver_body_run l w :
  let loop := for_each l (fun file_path =>
    augment_and_save file_path SAMPLE_RATE (Path INPUT_DIR) (Path OUTPUT_DIR)) w in
  driver_body l w =
  match outcome_of loop with
  | Ok _ => Res (Ok tt) (world_of loop)
                (EvPrint (found_message (length l)) :: events_of loop ++ [EvPrint done_message])
  | Raise e => Res (Raise e) (world_of loop)
                   (EvPrint (found_message (length l)) :: events_of loop)
  end.
Proof.
  cbv zeta. unfold driver_body.
  rewrite (bind_Ok _ _ w tt w [EvPrint (found_message (length l))] eq_refl).
  unfold bind. destruct (for_each l _ w) as [[[]|e] w1 ev1]; reflexivity.
Qed.

Lemma notebook_run w :
  let loop := for_each (discovered w) (fun file_path =>
    augment_and_save file_path SAMPLE_RATE (Path INPUT_DIR) (Path OUTPUT_DIR))
    (set_rnd {| stream := mersenne RANDOM_SEED; pos := 0 |} w) in
  notebook w =
  match outcome_of loop with
  | Ok _ => Res (Ok tt) (world_of loop)
                (EvPrint (found_message (length (discovered w)))
                   :: events_of loop ++ [EvPrint done_message])
  | Raise e => Res (Raise e) (world_of loop)
                   (EvPrint (found_message (length (discovered w))) :: events_of loop)
  end.
Proof. cbv zeta. rewrite notebook_unfold, driver_unfold. apply driver_body_run. Qed.

(** X4: the console tells what was written: a run prints the number of
    files found, then one [Saved:] line for each file written, in the
    order of the writes and naming its path, then the completion message
    if and only if it returns. *)
Theorem console_reports_every_write :
  forall (w : World),
    console (events_of (notebook w))
    = found_message (length (discovered w))
        :: map saved_line (writes_of (events_of (notebook w)))
        ++ match outcome_of (notebook w) with
           | Ok _ => [done_message]
           | Raise _ => []
           end.
Proof.
  intros w. rewrite notebook_run. cbv zeta.
  set (loop := for_each _ _ _).
  assert (console_matches_writes (events_of loop)) as Hloop.
  { apply (always_for_each console_matches_writes eq_refl console_matches_writes_app).
    intros f. apply augment_and_save_console. }
  unfold console_matches_writes in Hloop.
  destruct (outcome_of loop); cbn [events_of outcome_of];
    change (EvPrint ?m :: ?l) with ([EvPrint m] ++ l);
    rewrite ?console_app, ?writes_of_app, ?map_app, Hloop; cbn; rewrite ?app_nil_r; reflexivity.
Qed.

(** *** What a run that returns has done *)

Lemma no_loads evs :
  Forall (fun e => match e with EvLoad _ _ => False | _ => True end) evs -> loads_of evs = [].
Proof.
  induction 1 as [|e evs He _ IH]; [reflexivity | ].
  destruct e; try contradiction; exact IH.
Qed.

Lemma save_loop_loads_nothing y sr output_root rel w :
  loads_of (events_of (save_loop y sr output_root rel w)) = [].
Proof.
  apply no_loads. apply save_loop_emits; try (intros; exact I).
  apply call_augmenter_emits; [exact I | intros; exact I].
Qed.

(** A call that returns has loaded its file once and written its targets. *)
Lemma augment_and_save_collect f w :
  outcome_of (augment_and_save f SAMPLE_RATE (Path INPUT_DIR) (Path OUTPUT_DIR) w) = Ok tt ->
  loads_of (events_of (augment_and_save f SAMPLE_RATE (Path INPUT_DIR) (Path OUTPUT_DIR) w))
    = [f] /\
  writes_of (events_of (augment_and_save f SAMPLE_RATE (Path INPUT_DIR) (Path OUTPUT_DIR) w))
    = targets_of f.
Proof.
  rewrite augment_and_save_run. unfold targets_of.
  destruct (relative_to f (Path INPUT_DIR)) as [rel|]; [ | discriminate].
  destruct (node_at (fs w) f) as [[|[sr0 y0|]]|]; try discriminate.
  cbn [outcome_of events_of]. intros Hok.
  change (loads_of (EvLoad f SAMPLE_RATE :: ?l)) with (f :: loads_of l).
  change (writes_of (EvLoad f SAMPLE_RATE :: ?l)) with (writes_of l).
  rewrite save_loop_loads_nothing.
  now destruct (save_loop_collect _ _ _ _ _ Hok) as [-> _].
Qed.

Lemma targets_of_length w f : f ∈ discovered w -> length (targets_of f) = NUM_AUGMENTATIONS.
Proof.
  intros Hf. apply discovered_below in Hf. unfold below in Hf. unfold targets_of.
  destruct (relative_to f (Path INPUT_DIR)) as [[|c rel]|]; try discriminate.
  now rewrite length_map, length_seq.
Qed.

Lemma concat_singletons {X} (l : list X) : concat (map (fun x => [x]) l) = l.
Proof. induction l as [|x l IH]; simpl; [reflexivity | now rewrite IH]. Qed.

Lemma concat_fixed_length {X} (n : nat) (ls : list (list X)) :
  Forall (fun l => length l = n) ls -> length (concat ls) = n * length ls.
Proof.
  induction 1 as [|l ls Hl _ IH]; simpl; [lia | ].
  rewrite length_app, Hl, IH. lia.
Qed.

(** X5: a run that returns has loaded every file it found exactly once,
    in listing order, and has written for each of them, in that order, its
    copies 1 to NUM_AUGMENTATIONS: NUM_AUGMENTATIONS writes per file found. *)
Theorem returning_run_writes_every_copy :
  forall (w : World),
    outcome_of (notebook w) = Ok tt ->
    loads_of (events_of (notebook w)) = discovered w /\
    writes_of (events_of (notebook w)) = concat (map targets_of (discovered w)) /\
    length (writes_of (events_of (notebook w))) = NUM_AUGMENTATIONS * length (discovered w).
Proof.
  intros w. rewrite notebook_run. cbv zeta.
  set (process := fun file_path : path => augment_and_save file_path _ _ _).
  set (w1 := set_rnd _ w).
  destruct (outcome_of (for_each (discovered w) process w1)) as [[]|e] eqn:Hok;
    [ | discriminate].
  intros _. cbn [events_of].
  change (EvPrint ?m :: ?l ++ [EvPrint ?m']) with ([EvPrint m] ++ l ++ [EvPrint m']).
  rewrite !loads_of_app, !writes_of_app. cbn [loads_of writes_of omap].
  rewrite !app_nil_r. cbn [app].
  assert (writes_of (events_of (for_each (discovered w) process w1))
          = concat (map targets_of (discovered w))) as Hwrites.
  { apply (for_each_collect writes_of targets_of);
      [reflexivity | apply writes_of_app | | exact Hok].
    intros f w' Hf. now apply augment_and_save_collect. }
  split; [ | split; [exact Hwrites | ]].
  - rewrite (for_each_collect loads_of (fun f => [f]) _ _ eq_refl loads_of_app);
      [ | | exact Hok].
    + apply concat_singletons.
    + intros f w' Hf. now apply augment_and_save_collect.
  - rewrite Hwrites.
    replace (length (discovered w)) with (length (map targets_of (discovered w)))
      by apply length_map.
    apply concat_fixed_length.
    apply Forall_forall. intros l Hl.
    apply list_elem_of_fmap in Hl as (f & -> & Hf). now apply (targets_of_length w).
Qed.

(** *** What a call that raises has done *)

(** A loop stops at the first iteration that raises: what a projection of
    the actions collects comes from the iterations before it. *)
Lemma for_each_collect_prefix {A X} (proj : list event -> list X) (h : A -> list X)
      (l : list A) (body : A -> M unit) :
  proj [] = [] ->
  (forall e1 e2, proj (e1 ++ e2) = proj e1 ++ proj e2) ->
  (forall x w, proj (events_of (body x w))
               = match outcome_of (body x w) with Ok _ => h x | Raise _ => [] end) ->
  forall w, exists k,
    k <= length l /\
    proj (events_of (for_each l body w)) = concat (map h (take k l)) /\
    (outcome_of (for_each l body w) = Ok tt -> k = length l) /\
    (forall e, outcome_of (for_each l body w) = Raise e -> k < length l).
Proof.
  intros Hnil Happ Hbody. induction l as [|x l IH]; intros w; simpl.
  - exists 0. repeat split; auto. discriminate.
  - unfold bind. specialize (Hbody x w).
    destruct (body x w) as [[[]|e] w1 ev1]; simpl in *.
    + destruct (IH w1) as (k & Hk & Hproj & Hok & Hraise).
      exists (S k). simpl. rewrite Happ, Hbody, Hproj.
      repeat split; [lia | | ].
      * intros H. f_equal. now apply Hok.
      * intros e H. apply Hraise in H. lia.
    + exists 0. simpl. rewrite Hbody. repeat split; [lia | discriminate | intros; lia].
Qed.

Lemma save_step_writes y sr output_root rel i w :
  writes_of (events_of (save_step y sr output_root rel i w))
  = match outcome_of (save_step y sr output_root rel i w) with
    | Ok _ => [output_path output_root rel (i + 1)]
    | Raise _ => []
    end.
Proof.
  destruct (save_step_run y sr output_root rel i w) as (out & w1 & fires & _ & Hf & ->).
  destruct (fires_write_nothing _ Hf) as [Hw _].
  destruct (mkdir_from _ _ _) as [f1|e]; [destruct (node_at f1 _) as [[|c]|] | ];
    cbn [events_of outcome_of];
    change (EvAugment y sr :: ?l) with ([EvAugment y sr] ++ l);
    rewrite ?writes_of_app, Hw; reflexivity.
Qed.

(** X6: [augment_and_save] writes the copies in index order and stops at
    the first failure: whatever the outcome, the files written by a call
    are the copies 1 to k for some k, with k = NUM_AUGMENTATIONS when the
    call returns and k < NUM_AUGMENTATIONS when it raises. *)
Theorem copies_are_written_in_index_order :
  forall (f : path) (sr : N) (input_root output_root : path) (w : World) (rel : path),
    relative_to f input_root = Some rel ->
    let r := augment_and_save f sr input_root output_root w in
    exists k,
      k <= NUM_AUGMENTATIONS /\
      writes_of (events_of r) = map (output_path output_root rel) (seq 1 k) /\
      (outcome_of r = Ok tt -> k = NUM_AUGMENTATIONS) /\
      (forall e, outcome_of r = Raise e -> k < NUM_AUGMENTATIONS).
Proof.
  intros f sr input_root output_root w rel Hrel. cbv zeta.
  rewrite augment_and_save_run, Hrel.
  destruct (node_at (fs w) f) as [[|[sr0 y0|]]|];
    try (exists 0; repeat split; [lia | discriminate | intros; unfold NUM_AUGMENTATIONS; lia]).
  cbn [outcome_of events_of].
  change (writes_of (EvLoad f sr :: ?l)) with (writes_of l).
  unfold save_loop.
  destruct (for_each_collect_prefix writes_of
              (fun i => [output_path output_root rel (i + 1)])
              (seq 0 NUM_AUGMENTATIONS)
              (save_step (resample sr0 sr y0) sr output_root rel)
              eq_refl writes_of_app (save_step_writes _ _ _ _) w)
    as (k & Hk & Hproj & Hok & Hraise).
  rewrite length_seq in *. exists k. split; [exact Hk | ].
  split; [ | split; assumption].
  rewrite Hproj, take_seq, Nat.min_l by exact Hk.
  apply concat_singletons_shift.
Qed.

(** X7: the load comes before anything else: a call on a file that is not
    below the input root, is missing, is a directory or does not decode
    raises with the world as it was and nothing done; no output directory
    is created for it. *)
Theorem unloadable_input_leaves_no_trace :
  forall (f : path) (sr : N) (input_root output_root : path) (w : World),
    (forall rel sr0 y0, relative_to f input_root = Some rel ->
                        node_at (fs w) f <> Some (File (Audio sr0 y0))) ->
    exists e,
      augment_and_save f sr input_root output_root w = Res (Raise e) w [] /\
      e ∈ [ValueError; FileNotFoundError; IsADirectoryError; NoBackendError].
Proof.
  intros f sr input_root output_root w H. rewrite augment_and_save_run.
  destruct (relative_to f input_root) as [rel|].
  - specialize (H rel). destruct (node_at (fs w) f) as [[|[sr0 y0|]]|].
    + exists IsADirectoryError. split; [reflexivity | set_solver].
    + exfalso. now apply (H sr0 y0).
    + exists NoBackendError. split; [reflexivity | set_solver].
    + exists FileNotFoundError. split; [reflexivity | set_solver].
  - exists ValueError. split; [reflexivity | set_solver].
Qed.

End MoreEvents.

(** ** What a run does to the file system *)

Section MoreFs.
Context `{Libs : Libraries}.
Local Open Scope py_scope.

(** *** Relations between the tree found and the tree left *)

Section Relates.
Variable Rel : gmap path node -> gmap path node -> Prop.
Hypothesis Rel_refl : forall f, Rel f f.
Hypothesis Rel_trans : forall f1 f2 f3, Rel f1 f2 -> Rel f2 f3 -> Rel f1 f3.

Lemma relates_bind {A B} (m : M A) (k : A -> M B) :
  relates Rel m -> (forall a, relates Rel (k a)) -> relates Rel (bind m k).
Proof.
  intros Hm Hk w. unfold bind. specialize (Hm w).
  destruct (m w) as [[a|e] w1 ev1]; simpl in *; [ | assumption].
  eapply Rel_trans; [exact Hm | apply Hk].
Qed.

Lemma relates_for_each {A} (l : list A) (body : A -> M unit) :
  (forall x, relates Rel (body x)) -> relates Rel (for_each l body).
Proof.
  intros H. induction l as [|x l IH]; simpl.
  - intros w. apply Rel_refl.
  - apply relates_bind; [apply H | intros _; exact IH].
Qed.

(** What the steps of one iteration do carries over to the call and to the run. *)
Lemma relates_augment_and_save f sr input_root output_root :
  (forall y rel i, relates Rel (save_step y sr output_root rel i)) ->
  relates Rel (augment_and_save f sr input_root output_root).
Proof.
  intros Hstep w. rewrite augment_and_save_run.
  destruct (relative_to f input_root) as [rel|]; [ | apply Rel_refl].
  destruct (node_at (fs w) f) as [[|[sr0 y0|]]|]; try apply Rel_refl.
  cbn [world_of]. apply relates_for_each. intros i. apply Hstep.
Qed.

Lemma relates_notebook :
  (forall y rel i, relates Rel (save_step y SAMPLE_RATE (Path OUTPUT_DIR) rel i)) ->
  relates Rel notebook.
Proof.
  intros Hstep w. rewrite notebook_run. cbv zeta.
  set (loop := for_each _ _ _).
  assert (Rel (fs w) (fs (world_of loop))) as Hloop.
  { apply (relates_for_each (discovered w) _
             (fun f => relates_augment_and_save f _ _ _ Hstep)
             (set_rnd {| stream := mersenne RANDOM_SEED; pos := 0 |} w)). }
  destruct (outcome_of loop); exact Hloop.
Qed.

End Relates.

(** *** Nothing away from the output root changes *)

Lemma same_elsewhere_refl output_root f : same_elsewhere output_root f f.
Proof. intros p _. reflexivity. Qed.

Lemma same_elsewhere_trans output_root f1 f2 f3 :
  same_elsewhere output_root f1 f2 -> same_elsewhere output_root f2 f3 ->
  same_elsewhere output_root f1 f3.
Proof. intros H12 H23 p Hp. now rewrite H23, H12. Qed.

(** [mkdir] touches only the directory and the directories above it. *)
Lemma mkdir_from_elsewhere todo : forall done f f' p,
  mkdir_from done todo f = Ok f' ->
  (forall q, q <> [] -> q `prefix_of` todo -> p <> done ++ q) ->
  f' !! p = f !! p.
Proof.
  induction todo as [|c rest IH]; intros done f f' p; simpl.
  - now intros [= ->].
  - intros H Hp.
    assert (p <> done ++ [c]) as Hne
      by (apply Hp; [discriminate | now exists rest]).
    assert (forall q, q <> [] -> q `prefix_of` rest -> p <> (done ++ [c]) ++ q) as Hrest.
    { intros q Hq [k ->]. rewrite <- app_assoc. apply Hp; [discriminate | now exists k]. }
    destruct (f !! (done ++ [c])) as [[|c']|] eqn:E; try discriminate.
    + now apply (IH _ _ _ _ H).
    + rewrite (IH _ _ _ _ H Hrest). now apply lookup_insert_ne.
Qed.

Lemma around_prefix_of_subdir output_root sub q :
  q `prefix_of` output_root ++ sub -> around_output output_root q.
Proof.
  intros Hq. unfold around_output.
  apply (prefix_weak_total q output_root (output_root ++ sub)); [exact Hq | ].
  now exists sub.
Qed.

Lemma save_step_elsewhere y sr output_root rel i :
  relates (same_elsewhere output_root) (save_step y sr output_root rel i).
Proof.
  intros w p Hp.
  destruct (save_step_run y sr output_root rel i w) as (out & w1 & fires & F & _ & ->).
  destruct (mkdir_from _ _ _) as [f1|e] eqn:Emk; [ | cbn [world_of]; now rewrite F].
  assert (f1 !! p = fs w !! p) as Hf1.
  { apply (mkdir_from_elsewhere _ _ _ _ _ Emk). intros q _ Hq ->. apply Hp.
    now apply (around_prefix_of_subdir output_root (parent rel)). }
  destruct (node_at f1 _) as [[|c]|]; cbn [world_of fs set_fs]; try exact Hf1;
    (rewrite lookup_insert_ne; [exact Hf1 | ]);
    intros <-; apply Hp; right; unfold output_path, joinpath;
    rewrite <- app_assoc; now eexists.
Qed.

Lemma input_not_around_output p :
  Path INPUT_DIR `prefix_of` p -> ~ around_output (Path OUTPUT_DIR) p.
Proof.
  intros [r ->] [[k Hk]|[k Hk]]; vm_compute in Hk; congruence.
Qed.

(** X8: a call of [augment_and_save] changes no entry other than those on
    the way to its output root or below it; so a run of the notebook
    changes nothing outside the way to and the tree below OUTPUT_DIR, and
    every entry below INPUT_DIR, the input files among them, is after the
    run what it was before, whether the run returns or raises. *)
Theorem run_touches_only_the_output_tree :
  forall (w : World),
    (forall f sr input_root output_root,
        same_elsewhere output_root (fs w)
          (fs (world_of (augment_and_save f sr input_root output_root w)))) /\
    same_elsewhere (Path OUTPUT_DIR) (fs w) (fs (world_of (notebook w))) /\
    (forall p, Path INPUT_DIR `prefix_of` p -> fs (world_of (notebook w)) !! p = fs w !! p).
Proof.
  intros w.
  assert (same_elsewhere (Path OUTPUT_DIR) (fs w) (fs (world_of (notebook w)))) as Hrun.
  { apply (relates_notebook _ (same_elsewhere_refl _) (same_elsewhere_trans _)).
    intros y rel i. apply save_step_elsewhere. }
  split; [ | split; [exact Hrun | ]].
  - intros f sr input_root output_root.
    apply (relates_augment_and_save _ (same_elsewhere_refl _) (same_elsewhere_trans _)).
    intros y rel i. apply save_step_elsewhere.
  - intros p Hp. apply Hrun. now apply input_not_around_output.
Qed.

(** *** Nothing is removed and nothing changes kind *)

Lemma kinds_kept_refl f : kinds_kept f f.
Proof. intros p. split; eauto. Qed.

Lemma kinds_kept_trans f1 f2 f3 : kinds_kept f1 f2 -> kinds_kept f2 f3 -> kinds_kept f1 f3.
Proof.
  intros H12 H23 p. destruct (H12 p) as [Hd Hf]. split.
  - intros H. now apply H23, Hd.
  - intros c H. destruct (Hf c H) as [c' H']. now apply (H23 p) in H'.
Qed.

Lemma mkdir_from_kinds done todo f f' : mkdir_from done todo f = Ok f' -> kinds_kept f f'.
Proof.
  intros H p. destruct (mkdir_from_lookup _ _ _ _ p H) as [->|[Hn _]].
  - split; eauto.
  - rewrite Hn. split; [discriminate | intros c; discriminate].
Qed.

Lemma save_step_kinds y sr output_root rel i :
  relates kinds_kept (save_step y sr output_root rel i).
Proof.
  intros w.
  destruct (save_step_run y sr output_root rel i w) as (out & w1 & fires & F & _ & ->).
  destruct (mkdir_from _ _ _) as [f1|e] eqn:Emk;
    [ | cbn [world_of]; rewrite F; apply kinds_kept_refl].
  pose proof (mkdir_from_kinds _ _ _ _ Emk) as Hmk.
  rewrite node_at_output_path.
  destruct (f1 !! output_path output_root rel (i + 1)) as [[|c]|] eqn:Et;
    cbn [world_of fs set_fs]; try exact Hmk;
    (eapply kinds_kept_trans; [exact Hmk | ]);
    intros p; (destruct (decide (p = output_path output_root rel (i + 1))) as [->|Hne];
      [rewrite Et, lookup_insert_eq | rewrite lookup_insert_ne by congruence]);
    split; try discriminate; eauto; intros c0; discriminate.
Qed.

(** X9: a run never removes an entry and never puts a regular file where
    a directory was or a directory where a regular file was: every
    directory is still a directory afterwards and every regular file still
    a regular file, return or raise; the same holds of each call of
    [augment_and_save], whatever its roots. *)
Theorem run_removes_nothing_and_keeps_kinds :
  forall (w : World),
    (forall f sr input_root output_root,
        kinds_kept (fs w) (fs (world_of (augment_and_save f sr input_root output_root w)))) /\
    kinds_kept (fs w) (fs (world_of (notebook w))).
Proof.
  intros w. split.
  - intros f sr input_root output_root.
    apply (relates_augment_and_save _ kinds_kept_refl kinds_kept_trans).
    intros y rel i. apply save_step_kinds.
  - apply (relates_notebook _ kinds_kept_refl kinds_kept_trans).
    intros y rel i. apply save_step_kinds.
Qed.

(** *** Files found *)

Lemma below_prefix root p : below root p = true -> root `prefix_of` p /\ p <> root.
Proof.
  unfold below. destruct (relative_to p root) as [[|c r]|] eqn:E; try discriminate.
  intros _. apply relative_to_Some in E as ->. split; [now eexists | ].
  intros H. apply (f_equal length) in H. rewrite length_app in H. simpl in H. lia.
Qed.

(** *** What is written is what is on disk *)

Lemma stored_up_to_app output_root rel s evs1 evs2 w :
  stored_up_to output_root rel s (evs1 ++ evs2) w <->
  stored_up_to output_root rel s evs1 w /\ stored_up_to output_root rel s evs2 w.
Proof. apply Forall_app. Qed.

Lemma stored_up_to_fires output_root rel s fires w :
  Forall is_fire fires -> stored_up_to output_root rel s fires w.
Proof. intros H. eapply Forall_impl; [exact H | ]. intros []; simpl; tauto. Qed.

(** The writes recorded stay on disk when the entries they name are kept,
    and stay among the first copies when more copies are allowed. *)
Lemma stored_up_to_keep output_root rel s s' evs w w' :
  s <= s' ->
  (forall i n, 1 <= i <= s -> fs w !! output_path output_root rel i = Some n ->
               fs w' !! output_path output_root rel i = Some n) ->
  stored_up_to output_root rel s evs w -> stored_up_to output_root rel s' evs w'.
Proof.
  intros Hs Hkeep H. eapply Forall_impl; [exact H | ].
  intros [ | | | |p d r| ]; auto. intros [Hp (i & Hi & ->)].
  split; [now apply (Hkeep i) | exists i; split; [lia | reflexivity]].
Qed.

Lemma mkdir_from_keeps done todo f f' p n :
  mkdir_from done todo f = Ok f' -> f !! p = Some n -> f' !! p = Some n.
Proof.
  intros H Hp. destruct (mkdir_from_lookup _ _ _ _ p H) as [->|[Hn _]]; congruence.
Qed.

Lemma save_loop_stored y sr output_root rel n : forall s pre w,
  stored_up_to output_root rel s pre w ->
  let r := for_each (seq s n) (save_step y sr output_root rel) w in
  stored_up_to output_root rel (s + n) (pre ++ events_of r) (world_of r).
Proof.
  induction n as [|n IH]; intros s pre w Hpre; cbv zeta.
  - simpl. rewrite app_nil_r. eapply stored_up_to_keep; [ | | exact Hpre]; [lia | auto].
  - cbn [seq for_each]. unfold bind.
    destruct (save_step_run y sr output_root rel s w) as (out & w1 & fires & F & Hf & Hrun).
    rewrite Hrun. clear Hrun.
    destruct (mkdir_from _ _ (fs w)) as [f1|e] eqn:Emk.
    + destruct (node_at f1 _) as [[|c]|] eqn:Et.
      * cbn [world_of events_of].
        change (EvAugment y sr :: fires ++ ?l) with ([EvAugment y sr] ++ fires ++ l).
        rewrite !stored_up_to_app. repeat split.
        -- eapply stored_up_to_keep; [ | | exact Hpre]; [lia | ].
           intros i m _. cbn [fs set_fs]. now apply (mkdir_from_keeps _ _ _ _ _ _ Emk).
        -- repeat constructor.
        -- now apply stored_up_to_fires.
        -- repeat constructor.
      * specialize (IH (S s)
                       (pre ++ EvAugment y sr :: fires ++
                          [EvMkdir (joinpath output_root (parent rel));
                           EvWrite (output_path output_root rel (s + 1)) out sr;
                           EvPrint ("Saved: " +:+ str (output_path output_root rel (s + 1)))])
                       (set_fs (<[output_path output_root rel (s + 1)
                                  := File (Audio sr (map pcm_16 out))]> f1) w1)).
        cbv zeta in IH.
        destruct (for_each (seq (S s) n) _ _) as [o2 w2 ev2]. cbn [world_of events_of] in *.
        replace (s + S n) with (S s + n) by lia. rewrite <- app_assoc in IH.
        apply IH. clear IH.
        change (EvAugment y sr :: fires ++ ?l) with ([EvAugment y sr] ++ fires ++ l).
        rewrite !stored_up_to_app. repeat split.
        -- eapply stored_up_to_keep; [ | | exact Hpre]; [lia | ].
           intros i m Hi Hm. cbn [fs set_fs]. rewrite lookup_insert_ne.
           ++ now apply (mkdir_from_keeps _ _ _ _ _ _ Emk).
           ++ intros H. apply output_path_inj in H. lia.
        -- repeat constructor.
        -- now apply stored_up_to_fires.
        -- apply Forall_cons; split; [exact I | ].
           apply Forall_cons; split; [ | repeat constructor].
           cbn [fs set_fs]. split; [apply lookup_insert_eq | ].
           exists (s + 1). split; [lia | reflexivity].
      * specialize (IH (S s)
                       (pre ++ EvAugment y sr :: fires ++
                          [EvMkdir (joinpath output_root (parent rel));
                           EvWrite (output_path output_root rel (s + 1)) out sr;
                           EvPrint ("Saved: " +:+ str (output_path output_root rel (s + 1)))])
                       (set_fs (<[output_path output_root rel (s + 1)
                                  := File (Audio sr (map pcm_16 out))]> f1) w1)).
        cbv zeta in IH.
        destruct (for_each (seq (S s) n) _ _) as [o2 w2 ev2]. cbn [world_of events_of] in *.
        replace (s + S n) with (S s + n) by lia. rewrite <- app_assoc in IH.
        apply IH. clear IH.
        change (EvAugment y sr :: fires ++ ?l) with ([EvAugment y sr] ++ fires ++ l).
        rewrite !stored_up_to_app. repeat split.
        -- eapply stored_up_to_keep; [ | | exact Hpre]; [lia | ].
           intros i m Hi Hm. cbn [fs set_fs]. rewrite lookup_insert_ne.
           ++ now apply (mkdir_from_keeps _ _ _ _ _ _ Emk).
           ++ intros H. apply output_path_inj in H. lia.
        -- repeat constructor.
        -- now apply stored_up_to_fires.
        -- apply Forall_cons; split; [exact I | ].
           apply Forall_cons; split; [ | repeat constructor].
           cbn [fs set_fs]. split; [apply lookup_insert_eq | ].
           exists (s + 1). split; [lia | reflexivity].
    + cbn [world_of events_of].
      change (EvAugment y sr :: fires) with ([EvAugment y sr] ++ fires).
      rewrite !stored_up_to_app. repeat split.
      * eapply stored_up_to_keep; [ | | exact Hpre]; [lia | ].
        intros i m _. now rewrite F.
      * repeat constructor.
      * now apply stored_up_to_fires.
Qed.

(** X11: when a call of [augment_and_save] ends, return or raise, every
    file it wrote holds what that write stored, the 16-bit encoding of the
    samples written at the rate written: no later step of the call has
    replaced or removed it. *)
Theorem written_copies_are_on_disk :
  forall (f : path) (sr : N) (input_root output_root : path) (w : World),
    let r := augment_and_save f sr input_root output_root w in
    written_is_stored (events_of r) (world_of r).
Proof.
  intros f sr input_root output_root w. cbv zeta. rewrite augment_and_save_run.
  destruct (relative_to f input_root) as [rel|]; [ | constructor].
  destruct (node_at (fs w) f) as [[|[sr0 y0|]]|];
    [constructor | | constructor | constructor].
  cbn [events_of world_of]. constructor; [exact I | ].
  pose proof (save_loop_stored (resample sr0 sr y0) sr output_root rel
                NUM_AUGMENTATIONS 0 [] w (Forall_nil_2 _)) as H.
  cbv zeta in H. rewrite app_nil_l in H.
  eapply Forall_impl; [exact H | ]. intros [ | | | |p d r| ]; simpl; tauto.
Qed.

End MoreFs.

(** ** What holds while the files are processed *)

Section RunInvariants.
Context `{Libs : Libraries}.
Local Open Scope py_scope.

(** A loop whose iterations keep a property of the world, and under it
    complete only actions satisfying [Q], completes only such actions. *)
Lemma for_each_emits_under {A} (I : World -> Prop) (Q : event -> Prop)
      (l : list A) (body : A -> M unit) :
  (forall x w, x ∈ l -> I w ->
               I (world_of (body x w)) /\ Forall Q (events_of (body x w))) ->
  forall w, I w -> Forall Q (events_of (for_each l body w)).
Proof.
  induction l as [|x l IH]; intros Hbody w HI; simpl; [constructor | ].
  unfold bind. destruct (Hbody x w) as [HI1 HQ]; [left | assumption | ].
  destruct (body x w) as [[[]|e] w1 ev1]; simpl in *; [ | assumption].
  apply Forall_app. split; [assumption | ].
  apply IH; [ | assumption]. intros y w' Hy. apply Hbody. now right.
Qed.

(** A loop raises when one of its items raises whenever it is reached. *)
Lemma for_each_stops {A} (I : World -> Prop) (body : A -> M unit) x :
  (forall y w, I w -> I (world_of (body y w))) ->
  (forall w, I w -> exists e, outcome_of (body x w) = Raise e) ->
  forall l, x ∈ l -> forall w, I w -> exists e, outcome_of (for_each l body w) = Raise e.
Proof.
  intros Hkeep Hraise. induction l as [|y l IH]; intros Hx w HI.
  - now apply elem_of_nil in Hx.
  - simpl. unfold bind. pose proof (Hkeep y w HI) as HI1.
    destruct (body y w) as [[[]|e] w1 ev1] eqn:E; simpl in *; [ | eauto].
    apply elem_of_cons in Hx as [->|Hx].
    + destruct (Hraise w HI) as [e He]. rewrite E in He. discriminate.
    + now apply IH.
Qed.


Lemma node_at_below root f g : below root f = true -> node_at g f = g !! f.
Proof.
  intros Hb. apply below_prefix in Hb as [[r ->] Hne].
  destruct (root ++ r) as [|c l] eqn:E; [ | reflexivity].
  apply app_eq_nil in E as [-> _]. congruence.
Qed.



(** *** A directory among the files found *)

Lemma loads_of_avoid p evs :
  Forall (fun e => match e with EvLoad q _ => q <> p | _ => True end) evs ->
  p ∉ loads_of evs.
Proof.
  induction 1 as [|e evs He _ IH]; [apply not_elem_of_nil | ].
  destruct e; try exact IH. simpl. apply not_elem_of_cons. split; [congruence | exact IH].
Qed.

(** A directory stays one through a call, and a call on it raises
    before anything is done. *)
Lemma augment_and_save_on_directory p f w :
  below (Path INPUT_DIR) p = true ->
  fs w !! p = Some Dir ->
  let r := augment_and_save f SAMPLE_RATE (Path INPUT_DIR) (Path OUTPUT_DIR) w in
  fs (world_of r) !! p = Some Dir /\
  Forall (fun e => match e with EvLoad q _ => q <> p | _ => True end) (events_of r) /\
  (f = p -> exists e, outcome_of r = Raise e).
Proof.
  intros Hb Hp. cbv zeta. split; [ | split].
  - apply (relates_augment_and_save kinds_kept kinds_kept_refl kinds_kept_trans);
      [intros y rel i; apply save_step_kinds | exact Hp].
  - destruct (decide (f = p)) as [->|Hne].
    + rewrite augment_and_save_run, (node_at_below _ _ _ Hb), Hp.
      destruct (relative_to p (Path INPUT_DIR)); constructor.
    + apply augment_and_save_emits; try (intros; exact I); [exact Hne | ].
      intros y. apply call_augmenter_emits; intros; exact I.
  - intros ->. rewrite augment_and_save_run, (node_at_below _ _ _ Hb), Hp.
    destruct (relative_to p (Path INPUT_DIR)); eauto.
Qed.

(** X3: the driver does not tell directories from regular files: a
    directory below the input root whose name ends in [.wav] is among the
    files found and is handed to [augment_and_save] like them, so the run
    cannot complete: it raises, at that entry or before it, without having
    loaded the entry and without the completion message. *)
Theorem directory_named_like_audio_aborts_the_run :
  forall (w : World) (p : path),
    node_at (fs w) (Path INPUT_DIR) = Some Dir ->
    fs w !! p = Some Dir ->
    below (Path INPUT_DIR) p = true ->
    match_star ".wav" (name p) = true ->
    p ∈ discovered w /\
    (exists e, outcome_of (notebook w) = Raise e) /\
    (p ∉ loads_of (events_of (notebook w))) /\
    (EvPrint done_message ∉ events_of (notebook w)).
Proof.
  intros w p Hroot Hp Hbelow Hmatch.
  assert (p ∈ discovered w) as Hfound.
  { unfold discovered, rglob_list. rewrite Hroot.
    apply list_elem_of_filter. split.
    - rewrite Hbelow, Hmatch. exact I.
    - apply list_elem_of_fmap. exists (p, Dir). split; [reflexivity | ].
      now apply elem_of_map_to_list. }
  split; [exact Hfound | ].
  rewrite notebook_run. cbv zeta.
  set (w0 := set_rnd _ w). set (process := fun file_path : path => _).
  destruct (for_each_stops (fun w' => fs w' !! p = Some Dir) process p) with
    (l := discovered w) (w := w0) as [e He]; try assumption.
  { intros f w' Hw'. now apply augment_and_save_on_directory. }
  { intros w' Hw'. now apply (augment_and_save_on_directory p p w' Hbelow Hw'). }
  rewrite He. cbn [outcome_of events_of].
  split; [now exists e | split].
  - apply loads_of_avoid. constructor; [exact I | ].
    apply (for_each_emits_under (fun w' => fs w' !! p = Some Dir)); [ | exact Hp].
    intros f w' _ Hw'.
    destruct (augment_and_save_on_directory p f w' Hbelow Hw') as (H1 & H2 & _). now split.
  - change (EvPrint (found_message (length (discovered w))) :: ?l)
      with ([EvPrint (found_message (length (discovered w)))] ++ l).
    apply not_in_app_events; [repeat constructor; discriminate | ].
    apply emits_for_each. intros f _. apply prints_other_than_done.
Qed.

End RunInvariants.

(** ** Names: when two inputs share an output *)

Lemma chars_append (s t : string) : chars (s +:+ t) = chars s ++ chars t.
Proof. induction s as [|c s IH]; simpl; [reflexivity | now rewrite IH]. Qed.

Lemma chars_inj (s t : string) : chars s = chars t -> s = t.
Proof.
  revert t; induction s as [|c s IH]; intros [|d t]; simpl; try congruence.
  intros [= -> H]. f_equal. now apply IH.
Qed.

Lemma pretty_N_char_not_g (x : N) : pretty_N_char x <> "g"%char.
Proof. unfold pretty_N_char. repeat case_match; discriminate. Qed.

(** Decimal numerals have no letter [g]. *)
Lemma pretty_N_go_no_g (x : N) : forall s,
  "g"%char ∉ chars s -> "g"%char ∉ chars (pretty_N_go x s).
Proof.
  induction (N.lt_wf_0 x) as [x _ IH]. intros s Hs.
  destruct (decide (x = 0)%N) as [->|Hx]; [now rewrite pretty_N_go_0 | ].
  rewrite pretty_N_go_step by lia.
  apply IH; [apply N.div_lt; lia | ].
  simpl. intros H. apply elem_of_cons in H as [H|H]; [ | contradiction].
  now apply (pretty_N_char_not_g (x mod 10)).
Qed.

Lemma pretty_nat_no_g (n : nat) : "g"%char ∉ chars (pretty n).
Proof.
  unfold pretty, pretty_nat, pretty, pretty_N.
  destruct (decide (N.of_nat n = 0)%N).
  - simpl. intros H. apply elem_of_cons in H as [H|H]; [discriminate | ].
    now apply elem_of_nil in H.
  - apply pretty_N_go_no_g. apply not_elem_of_nil.
Qed.

(** A list splits in one way only around the last occurrence of [x]. *)
Lemma split_at_last {X} (x : X) (a a' d d' : list X) :
  x ∉ d -> x ∉ d' -> a ++ x :: d = a' ++ x :: d' -> a = a' /\ d = d'.
Proof.
  intros Hd Hd'. revert a'. induction a as [|c a IH]; intros [|c' a']; simpl.
  - intros [= ->]. auto.
  - intros [= <- ->]. exfalso. apply Hd. apply elem_of_app. right. left.
  - intros [= -> <-]. exfalso. apply Hd'. apply elem_of_app. right. left.
  - intros [= -> H]. destruct (IH _ H) as [-> ->]. auto.
Qed.

(** An output name tells the basename and the index it was made from. *)
Lemma output_name_inj_both `{Libs : Libraries} b b' i j :
  output_name b i = output_name b' j -> b = b' /\ i = j.
Proof.
  unfold output_name. intros H. apply (f_equal chars) in H.
  rewrite !chars_append in H.
  change (chars "_aug") with (chars "_au" ++ ["g"%char]) in H.
  rewrite !app_assoc in H. apply app_inv_tail in H.
  rewrite <- !app_assoc in H. simpl in H.
  change (chars b ++ ?c1 :: ?c2 :: ?c3 :: ?g :: chars (pretty i))
    with (chars b ++ [c1; c2; c3] ++ g :: chars (pretty i)) in H.
  change (chars b' ++ ?c1 :: ?c2 :: ?c3 :: ?g :: chars (pretty j))
    with (chars b' ++ [c1; c2; c3] ++ g :: chars (pretty j)) in H.
  rewrite !app_assoc in H.
  apply split_at_last in H as [Hb Hi]; try apply pretty_nat_no_g.
  apply app_inv_tail in Hb. split; [now apply chars_inj | ].
  apply chars_inj in Hi. now apply pretty_nat_inj in Hi.
Qed.

(** *** Stems of names ending in [.wav] *)

Lemma match_star_suffix lit n : match_star lit n = true -> exists s, n = s +:+ lit.
Proof.
  induction n as [|c n IH]; simpl.
  - rewrite orb_false_r. intros H. apply bool_decide_eq_true in H as <-. now exists "".
  - intros H. apply orb_prop in H as [H|H].
    + apply bool_decide_eq_true in H as <-. now exists "".
    + destruct (IH H) as [s ->]. now exists (String c s).
Qed.

Lemma rfind_dot_wav s : rfind_dot (s +:+ ".wav") = Some (String.length s).
Proof. induction s as [|c s IH]; simpl; [reflexivity | now rewrite IH]. Qed.

Lemma substring_prefix s t : String.substring 0 (String.length s) (s +:+ t) = s.
Proof.
  induction s as [|c s IH]; simpl; [now destruct t | now rewrite IH].
Qed.

(** A name ending in [.wav], other than [.wav] itself, is its stem
    followed by [.wav]. *)
Lemma name_is_stem_wav (p : path) :
  match_star ".wav" (name p) = true -> name p <> ".wav" -> name p = stem p +:+ ".wav".
Proof.
  intros Hm Hne. unfold stem. destruct (match_star_suffix _ _ Hm) as [s Hs].
  rewrite Hs, rfind_dot_wav.
  assert (s <> "") as Hnonempty by (intros ->; now apply Hne).
  assert ((0 <? String.length s) && (String.length s <? String.length (s +:+ ".wav") - 1)
          = true) as ->.
  { rewrite append_length. simpl. destruct s; [contradiction | ]. simpl.
    apply Nat.ltb_lt. lia. }
  now rewrite substring_prefix.
Qed.

Lemma name_app (root rel : path) : rel <> [] -> name (root ++ rel) = name rel.
Proof.
  intros H. unfold name.
  rewrite (app_removelast_last "" H), app_assoc, !last_last. reflexivity.
Qed.

Lemma path_parent_name (rel : path) : rel <> [] -> rel = parent rel ++ [name rel].
Proof. intros H. now apply app_removelast_last. Qed.

Section Collisions.
Context `{Libs : Libraries}.

Lemma discovered_matches w f : f ∈ discovered w -> match_star ".wav" (name f) = true.
Proof.
  unfold discovered, rglob_list.
  destruct (node_at _ _) as [[|c]|]; try (intros H; now apply elem_of_nil in H).
  intros H. apply list_elem_of_filter in H as [H _].
  apply andb_prop_elim in H as [_ H]. now apply Is_true_true.
Qed.

(** Two paths with a common output have the directory and the stem in common. *)
Lemma output_path_inj_both output_root rel rel' i j :
  output_path output_root rel i = output_path output_root rel' j ->
  parent rel = parent rel' /\ stem rel = stem rel' /\ i = j.
Proof.
  unfold output_path, joinpath. intros H.
  apply app_inj_tail in H as [Hp Hn]. apply app_inv_head in Hp.
  apply output_name_inj_both in Hn as [Hs Hi]. auto.
Qed.

(** X12: two files found by the driver have an output path in common only
    if they are the same file, provided neither is named exactly [.wav]:
    apart from that name, no copy of one input overwrites a copy of
    another. *)
Theorem distinct_inputs_have_distinct_outputs :
  forall (w : World) (f f' p : path),
    f ∈ discovered w -> f' ∈ discovered w ->
    name f <> ".wav" -> name f' <> ".wav" ->
    p ∈ targets_of f -> p ∈ targets_of f' ->
    f = f'.
Proof.
  intros w f f' p Hf Hf' Hn Hn' Hp Hp'.
  pose proof (discovered_matches _ _ Hf) as Hm.
  pose proof (discovered_matches _ _ Hf') as Hm'.
  apply discovered_below in Hf, Hf'. unfold below in Hf, Hf'. unfold targets_of in Hp, Hp'.
  destruct (relative_to f (Path INPUT_DIR)) as [[|c rel]|] eqn:E; try discriminate.
  destruct (relative_to f' (Path INPUT_DIR)) as [[|c' rel']|] eqn:E'; try discriminate.
  apply relative_to_Some in E, E'. subst f f'.
  rewrite name_app in Hn, Hn', Hm, Hm' by discriminate.
  apply list_elem_of_fmap in Hp as (i & -> & _).
  apply list_elem_of_fmap in Hp' as (j & Hij & _).
  apply output_path_inj_both in Hij as (Hparent & Hstem & _).
  f_equal.
  rewrite (path_parent_name (c :: rel)), (path_parent_name (c' :: rel')) by discriminate.
  rewrite Hparent. f_equal. f_equal.
  rewrite (name_is_stem_wav _ Hm Hn), (name_is_stem_wav _ Hm' Hn'). now rewrite Hstem.
Qed.

End Collisions.

(** ** The further properties at work *)

Module MoreRuns.
Import Toy MoreToy.
#[local] Existing Instance Toy.libs.

(** Both files of [shared_stem] are processed and the run returns, but the
    copies of the second replace those of the first: six writes, three
    paths. *)
Example shared_stem_overwrites :
  outcome_of (notebook (world shared_stem)) = Ok tt /\
  length (writes_of (events_of (notebook (world shared_stem)))) = 6 /\
  targets_of (raw ++ [".wav"]) = targets_of (raw ++ [".wav.wav"]).
Proof. split; [ | split]; vm_compute; reflexivity. Qed.

(** A regular file in the place of a class directory: [mkdir] raises
    FileExistsError. *)
Example blocked_class_directory_aborts :
  outcome_of (notebook (world class_directory_is_a_file)) = Raise FileExistsError.
Proof. vm_compute. reflexivity. Qed.

(** With draws that make noise, pitch shift and time shift apply and time
    stretch not, the chain returns its input marked by the three effects
    in chain order, the last one applied outermost. *)
Example chain_applies_effects_in_order :
  let r := call_augmenter [10; 20]%Z SAMPLE_RATE
             {| fs := two_files; rnd := tape_for true false true true; amb := tt |} in
  fired (events_of r) = [Noise; Pitch; TimeShift] /\
  outcome_of r = Ok [4; 3; 1; 10; 20]%Z.
Proof. split; vm_compute; reflexivity. Qed.

(** What is read back from a written file is the clipped waveform. *)
Example written_samples_are_encoded :
  outcome_of (sf_write (out ++ ["loud.wav"]) [40000; 7]%Z SAMPLE_RATE
                       (world (<[out := Dir]> two_files))) = Ok tt /\
  fs (world_of (sf_write (out ++ ["loud.wav"]) [40000; 7]%Z SAMPLE_RATE
                         (world (<[out := Dir]> two_files)))) !! (out ++ ["loud.wav"])
  = Some (File (Audio SAMPLE_RATE [32767; 7]%Z)).
Proof. split; vm_compute; reflexivity. Qed.

Lemma directory_named_like_audio_aborts_the_run_witness :
  raw ++ ["clips.wav"] ∈ discovered (world directory_named_wav) /\
  (exists e, outcome_of (notebook (world directory_named_wav)) = Raise e) /\
  (raw ++ ["clips.wav"] ∉ loads_of (events_of (notebook (world directory_named_wav)))) /\
  (EvPrint done_message ∉ events_of (notebook (world directory_named_wav))).
Proof.
  apply (directory_named_like_audio_aborts_the_run
           (world directory_named_wav) (raw ++ ["clips.wav"]));
    vm_compute; reflexivity.
Defined.

Lemma returning_run_writes_every_copy_witness :
  loads_of (events_of (notebook (world two_files))) = discovered (world two_files) /\
  writes_of (events_of (notebook (world two_files)))
    = concat (map targets_of (discovered (world two_files))) /\
  length (writes_of (events_of (notebook (world two_files))))
    = NUM_AUGMENTATIONS * length (discovered (world two_files)).
Proof.
  apply (returning_run_writes_every_copy (world two_files)).
  vm_compute. reflexivity.
Defined.

Lemma copies_are_written_in_index_order_witness :
  exists k,
    k <= NUM_AUGMENTATIONS /\
    writes_of (events_of (augment_and_save yes_wav SAMPLE_RATE (Path INPUT_DIR)
                            (Path OUTPUT_DIR) (world target_is_a_directory)))
      = map (output_path (Path OUTPUT_DIR) ["red"; "yes.wav"]) (seq 1 k) /\
    (outcome_of (augment_and_save yes_wav SAMPLE_RATE (Path INPUT_DIR)
                   (Path OUTPUT_DIR) (world target_is_a_directory)) = Ok tt ->
     k = NUM_AUGMENTATIONS) /\
    (forall e, outcome_of (augment_and_save yes_wav SAMPLE_RATE (Path INPUT_DIR)
                             (Path OUTPUT_DIR) (world target_is_a_directory)) = Raise e ->
               k < NUM_AUGMENTATIONS).
Proof.
  apply (copies_are_written_in_index_order yes_wav SAMPLE_RATE (Path INPUT_DIR)
           (Path OUTPUT_DIR) (world target_is_a_directory) ["red"; "yes.wav"]).
  vm_compute. reflexivity.
Defined.

Lemma unloadable_input_leaves_no_trace_witness :
  exists e,
    augment_and_save no_wav SAMPLE_RATE (Path INPUT_DIR) (Path OUTPUT_DIR)
                     (world corrupt_second)
    = Res (Raise e) (world corrupt_second) [] /\
    e ∈ [ValueError; FileNotFoundError; IsADirectoryError; NoBackendError].
Proof.
  apply (unloadable_input_leaves_no_trace no_wav SAMPLE_RATE (Path INPUT_DIR)
           (Path OUTPUT_DIR) (world corrupt_second)).
  intros rel sr0 y0 _. vm_compute. discriminate.
Defined.

Lemma distinct_inputs_have_distinct_outputs_witness : yes_wav = yes_wav.
Proof.
  apply (distinct_inputs_have_distinct_outputs
           (world two_files) yes_wav yes_wav (out ++ ["red"; "yes_aug1.wav"])).
  - apply (bool_decide_unpack _). vm_compute. exact I.
  - apply (bool_decide_unpack _). vm_compute. exact I.
  - vm_compute. discriminate.
  - vm_compute. discriminate.
  - apply (bool_decide_unpack _). vm_compute. exact I.
  - apply (bool_decide_unpack _). vm_compute. exact I.
Defined.

End MoreRuns.
